(** * svg.py: shapes, the element tree and the document normalizer

    A shallow embedding of [svg.py].  The element tree of lxml is a store
    of elements with identity (a forest: the document tree and the
    elements detached from it); the dataclasses of [svg_types] are data
    objects with a class and field values; exceptions are results. *)

From Stdlib Require Import String Ascii.
From stdpp Require Import base option list strings.

Local Open Scope string_scope.
Set Warnings "-register-all".

(** ** Exceptions *)

Inductive exn :=
| ValueError (msg : string)
| TypeError
| AttributeError
| KeyError
| NameError (name : string).

Inductive result (A : Type) :=
| Ok (a : A)
| Raise (e : exn).
Arguments Ok {A} a.
Arguments Raise {A} e.

Definition rbind {A B} (r : result A) (k : A → result B) : result B :=
  match r with
  | Ok a => k a
  | Raise e => Raise e
  end.

Notation "x ←r e1 ; e2" := (rbind e1 (fun x => e2))
  (at level 100, e1 at next level, right associativity).

Definition raises {A} (r : result A) : Prop :=
  match r with
  | Ok _ => False
  | Raise _ => True
  end.

(** ** The element tree (lxml.etree)

    An element has an identity (its handle), a tag, attributes in
    insertion order and children.  Text and tails are not touched by
    [svg.py] and are left out. *)

Definition handle := nat.

Inductive node :=
| Node (nid : handle) (ntag : string) (nattrib : list (string * string))
       (nchildren : list node).

Definition nid (n : node) : handle := let 'Node i _ _ _ := n in i.
Definition ntag (n : node) : string := let 'Node _ t _ _ := n in t.
Definition nattrib (n : node) : list (string * string) :=
  let 'Node _ _ a _ := n in a.
Definition nchildren (n : node) : list node := let 'Node _ _ _ cs := n in cs.

(** A dict kept in insertion order: [d.get(k)], [k in d], [d[k] = v],
    [d.get(k, default)], [d.update(items)]. *)
Section dict.
Context {K V : Type} `{EqDecision K}.

Fixpoint dict_get (k : K) (d : list (K * V)) : option V :=
  match d with
  | [] => None
  | (k', v) :: d' => if decide (k' = k) then Some v else dict_get k d'
  end.

Definition dict_in (k : K) (d : list (K * V)) : bool :=
  match dict_get k d with
  | Some _ => true
  | None => false
  end.

Fixpoint dict_set (k : K) (v : V) (d : list (K * V)) : list (K * V) :=
  match d with
  | [] => [(k, v)]
  | (k', v') :: d' =>
      if decide (k' = k) then (k, v) :: d' else (k', v') :: dict_set k v d'
  end.

Definition dict_get_default (k : K) (dflt : V) (d : list (K * V)) : V :=
  match dict_get k d with
  | Some v => v
  | None => dflt
  end.

Definition dict_update (d items : list (K * V)) : list (K * V) :=
  foldl (λ d kv, dict_set kv.1 kv.2 d) d items.

End dict.

(** The store: every live element sits in exactly one tree of the forest;
    a tree's root is an element without parent.  [next] is the first
    unused identity. *)
Record world := World { forest : list node; next : handle }.

(** [el.iter('*')]: the element and its descendants in document order. *)
Fixpoint iter (n : node) : list node :=
  match n with
  | Node _ _ _ cs => n :: (cs ≫= iter)
  end.

Definition nodes (F : list node) : list node := F ≫= iter.

Definition ids (F : list node) : list handle := nid <$> nodes F.

(** Dereferencing a handle. *)
Definition find_node (h : handle) (F : list node) : option node :=
  head (filter (λ n, nid n = h) (nodes F)).

(** [el.getparent()]: [None] for an element without parent. *)
Definition getparent (h : handle) (F : list node) : option handle :=
  nid <$> head (filter (λ m, h ∈ (nid <$> nchildren m)) (nodes F)).

(** [parent.replace(old, new)] inside one tree: the child [old] of [p]
    gives its place to [new]. *)
Fixpoint replace_at (p old : handle) (new : node) (n : node) : node :=
  match n with
  | Node i t a cs =>
      Node i t a
        (map (λ c, if bool_decide (i = p ∧ nid c = old) then new
                   else replace_at p old new c) cs)
  end.

(** [parent.replace(old, new)] on the store: [new], a fresh element held
    by the caller, enters the tree; [old] leaves it with its subtree and
    stays live as a parentless element. *)
Definition replace (p old : handle) (new : node) (F : list node)
  : list node :=
  (replace_at p old new <$> F) ++ option_list (find_node old F).

(** [copy.deepcopy(root)]: the same tree under identities of its own, the
    source's shifted past every identity in use. *)
Fixpoint relabel (off : nat) (n : node) : node :=
  match n with
  | Node i t a cs => Node (off + i) t a (map (relabel off) cs)
  end.

Definition deepcopy (root : handle) (w : world) : handle * world :=
  match find_node root (forest w) with
  | Some t =>
      (next w + root,
       {| forest := forest w ++ [relabel (next w) t];
          next := next w + next w |})
  | None => (next w, {| forest := forest w; next := S (next w) |})
  end.

(** The same tree under other identities, and the renaming that moves
    the identities from [k] on up by [k]. *)
Fixpoint rename (ρ : handle → handle) (n : node) : node :=
  match n with
  | Node i t a cs => Node (ρ i) t a (map (rename ρ) cs)
  end.

Definition past (k : nat) (j : handle) : handle :=
  if decide (j < k) then j else k + j.

(** [etree.tostring(root)].  The serializer belongs to lxml; this one
    writes tags as they are stored and attributes in insertion order. *)
Definition serialize_attrib (a : list (string * string)) : string :=
  String.concat EmptyString
    (map (λ kv, " " +:+ fst kv +:+ "='" +:+ snd kv +:+ "'") a).

Fixpoint serialize (n : node) : string :=
  match n with
  | Node _ t a cs =>
      "<" +:+ t +:+ serialize_attrib a +:+ ">"
      +:+ String.concat EmptyString (map serialize cs)
      +:+ "</" +:+ t +:+ ">"
  end.

Definition etree_tostring (root : handle) (F : list node) : string :=
  match find_node root F with
  | Some t => serialize t
  | None => EmptyString
  end.

(** A tree without identities: what a parser reads and a serializer
    writes. *)
Inductive xml :=
| Xml (xtag : string) (xattrib : list (string * string))
      (xchildren : list xml).

Fixpoint strip (n : node) : xml :=
  match n with
  | Node _ t a cs => Xml t a (map strip cs)
  end.

Fixpoint xsize (x : xml) : nat :=
  match x with
  | Xml _ _ cs => S (list_sum (map xsize cs))
  end.

(** [etree.fromstring]: the parsed tree gets identities in document
    order, from [k] on. *)
Fixpoint label_children (label : handle → xml → node) (k : handle)
    (cs : list xml) : list node :=
  match cs with
  | [] => []
  | c :: cs' => label k c :: label_children label (k + xsize c) cs'
  end.

Fixpoint label (k : handle) (x : xml) : node :=
  match x with
  | Xml t a cs => Node k t a (label_children label (S k) cs)
  end.

Definition etree_fromstring (x : xml) (w : world) : handle * world :=
  (next w,
   {| forest := forest w ++ [label (next w) x];
      next := next w + xsize x |}).

(** The identities that sit below some element: an element has a parent
    exactly when its identity is among them. *)
Definition kids (l : list node) : list handle :=
  l ≫= (λ m, nid <$> nchildren m).

Definition child_ids (F : list node) : list handle := kids (nodes F).

(** A well-formed store: identities are unique and below [next]. *)
Definition wf (w : world) : Prop :=
  NoDup (ids (forest w)) ∧ Forall (λ i, i < next w) (ids (forest w)).

(** ** The shape dataclasses (svg_types) *)

Inductive shape_class :=
| SVGCircle | SVGEllipse | SVGLine | SVGPath | SVGPolygon | SVGPolyline
| SVGRect.

Global Instance shape_class_eq_dec : EqDecision shape_class.
Proof. solve_decision. Defined.

(** Python's [float], as far as [svg.py] meets it: the conversion
    [float(s)] of an attribute string ([None] when it raises ValueError),
    the truth value of a float, the default [0] of a numeric field, and
    what the tree's attribute store does when handed a float
    ([el.attrib[k] = x]): the string it keeps, or [None] when it refuses
    the value with a TypeError. *)
Class PyFloat := {
  float : Type;
  float_of_string : string → option float;
  float_truth : float → bool;
  float_zero : float;
  attrib_of_float : float → option string;
}.

Section svg.
Context `{PyFloat}.

(** A field value: [str] or [float]. *)
Inductive value :=
| VStr (s : string)
| VFloat (x : float).

(** [bool(v)] *)
Definition truth (v : value) : bool :=
  match v with
  | VStr s => negb (String.eqb s EmptyString)
  | VFloat x => float_truth x
  end.

(** The declared type of a field, called on an attribute string. *)
Inductive ftype := TStr | TFloat.

Definition convert (ty : ftype) (s : string) : result value :=
  match ty with
  | TStr => Ok (VStr s)
  | TFloat =>
      match float_of_string s with
      | Some x => Ok (VFloat x)
      | None => Raise (ValueError "could not convert string to float")
      end
  end.

Record field := Field { f_name : string; f_type : ftype; f_default : value }.

Definition str_field (n : string) : field := Field n TStr (VStr EmptyString).
Definition float_field (n : string) : field :=
  Field n TFloat (VFloat float_zero).

(** Modelled from the spec: the dataclasses of [svg_types], which is not
    among the sources.  Every shape carries a [clip_path] reference and
    the common presentation attributes opacity, fill and stroke, passed
    through unchanged (strings, blank by default). *)
Definition presentation_fields : list field :=
  [str_field "clip_path"; str_field "opacity"; str_field "fill";
   str_field "stroke"].

(** Modelled from the spec: the geometry of the seven shapes of
    [svg_types]: Circle(cx, cy, r), Ellipse(cx, cy, rx, ry),
    Line(x1, y1, x2, y2), Rect(x, y, width, height, rx, ry),
    Polygon(points), Polyline(points), Path(raw path data string). *)
Definition geometry_fields (c : shape_class) : list field :=
  match c with
  | SVGCircle => float_field <$> ["cx"; "cy"; "r"]
  | SVGEllipse => float_field <$> ["cx"; "cy"; "rx"; "ry"]
  | SVGLine => float_field <$> ["x1"; "y1"; "x2"; "y2"]
  | SVGPath => [str_field "d"]
  | SVGPolygon => [str_field "points"]
  | SVGPolyline => [str_field "points"]
  | SVGRect => float_field <$> ["x"; "y"; "width"; "height"; "rx"; "ry"]
  end.

(** [dataclasses.fields(cls)] *)
Definition fields (c : shape_class) : list field :=
  presentation_fields ++ geometry_fields c.

(** A data object: its class and [getattr]. *)
Record dobj := Dobj { dtype : shape_class; dget : string → value }.

(** [dataclasses.asdict(obj)], in field order. *)
Definition asdict (o : dobj) : list (string * value) :=
  (λ f, (f_name f, dget o (f_name f))) <$> fields (dtype o).

(** Modelled from the spec: the constructor [cls( **args )] of a shape
    dataclass of [svg_types].  Every field is optional: one that is not
    given takes its default. *)
Definition construct (c : shape_class) (args : list (string * value))
  : dobj :=
  {| dtype := c;
     dget := λ n,
       match dict_get n args with
       | Some v => v
       | None =>
           match head (filter (λ f, f_name f = n) (fields c)) with
           | Some f => f_default f
           | None => VStr EmptyString
           end
       end |}.

(** The path data of a basic shape, computed from its geometry by
    [svg_types] in floating point: taken as given. *)
Variable outline : shape_class → (string → value) → string.

(** Modelled from the spec: [as_path] of [svg_types].  A Path returns
    itself; a basic shape returns a new Path with its outline as path data
    and its non-geometric fields carried forward unchanged. *)
Definition as_path (o : dobj) : dobj :=
  match dtype o with
  | SVGPath => o
  | c =>
      {| dtype := SVGPath;
         dget := λ n,
           if decide (n = "d") then VStr (outline c (dget o))
           else if decide (n ∈ f_name <$> presentation_fields) then dget o n
           else VStr EmptyString |}
  end.

(** ** svg.py *)

(** Modelled from the spec: [svgns()] of [svg_meta], the SVG namespace. *)
Definition svgns : string := "http://www.w3.org/2000/svg".

Definition namespaced (k : string) : string := "{" +:+ svgns +:+ "}" +:+ k.

Definition _ELEMENT_CLASSES_literal : list (string * shape_class) :=
  [("circle", SVGCircle); ("ellipse", SVGEllipse); ("line", SVGLine);
   ("path", SVGPath); ("polygon", SVGPolygon); ("polyline", SVGPolyline);
   ("rect", SVGRect)].

Definition _CLASS_ELEMENTS : list (shape_class * string) :=
  foldl (λ d kv, dict_set kv.2 (namespaced kv.1) d) []
    _ELEMENT_CLASSES_literal.

Definition _ELEMENT_CLASSES : list (string * shape_class) :=
  dict_update _ELEMENT_CLASSES_literal
    ((λ kv, (namespaced kv.1, kv.2)) <$> _ELEMENT_CLASSES_literal).

Definition _OMIT_FIELD_IF_BLANK : list string := ["clip_path"].

Definition _ATTR_RENAMES : list (string * string) :=
  [("clip-path", "clip_path")].

Definition _FIELD_RENAMES : list (string * string) :=
  foldl (λ d kv, dict_set kv.2 kv.1 d) [] _ATTR_RENAMES.

(** [_FIELD_RENAMES.get(name, name)] *)
Definition field_attr (name : string) : string :=
  dict_get_default name name _FIELD_RENAMES.

(** The dict comprehension of [_el_to_data], field by field. *)
Fixpoint read_args (attrib : list (string * string)) (fs : list field)
    (args : list (string * value)) : result (list (string * value)) :=
  match fs with
  | [] => Ok args
  | f :: fs' =>
      match dict_get (field_attr (f_name f)) attrib with
      | Some s =>
          v ←r convert (f_type f) s;
          read_args attrib fs' (dict_set (f_name f) v args)
      | None => read_args attrib fs' args
      end
  end.

Definition _el_to_data (el : node) : result dobj :=
  match dict_get (ntag el) _ELEMENT_CLASSES with
  | None => Raise (ValueError ("Bad tag <" +:+ ntag el +:+ ">"))
  | Some data_type =>
      args ←r read_args (nattrib el) (fields data_type) [];
      Ok (construct data_type args)
  end.

(** [el.attrib[k] = v] takes a string; a float is up to the store. *)
Definition attrib_value (v : value) : option string :=
  match v with
  | VStr s => Some s
  | VFloat x => attrib_of_float x
  end.

(** The loop of [_data_to_el] over [asdict(data_obj).items()]. *)
Fixpoint write_fields (items : list (string * value))
    (attrib : list (string * string)) : result (list (string * string)) :=
  match items with
  | [] => Ok attrib
  | (field_name, field_value) :: items' =>
      if bool_decide (field_name ∈ _OMIT_FIELD_IF_BLANK)
         && negb (truth field_value)
      then write_fields items' attrib
      else
        match attrib_value field_value with
        | Some s =>
            write_fields items' (dict_set (field_attr field_name) s attrib)
        | None => Raise TypeError
        end
  end.

(** [etree.Element(tag)] makes a fresh element without parent; it is
    held by the caller until a [replace] puts it into a tree. *)
Definition _data_to_el (data_obj : dobj) (w : world) : result node * world :=
  match dict_get (dtype data_obj) _CLASS_ELEMENTS with
  | None => (Raise KeyError, w)
  | Some tag =>
      let w' := {| forest := forest w; next := S (next w) |} in
      match write_fields (asdict data_obj) [] with
      | Ok attrib => (Ok (Node (next w) tag attrib []), w')
      | Raise e => (Raise e, w')
      end
  end.

Fixpoint _apply_swaps (swaps : list (handle * node)) (F : list node)
  : result unit * list node :=
  match swaps with
  | [] => (Ok (), F)
  | (old_el, new_el) :: swaps' =>
      match getparent old_el F with
      | None => (Raise AttributeError, F)
      | Some parent => _apply_swaps swaps' (replace parent old_el new_el F)
      end
  end.

(** The global [_etree] that [shape_to_path] looks up.  [svg.py] never
    binds the name: the module does not define it, it imports only [copy],
    [etree] and [svgns] by name, and the star import of [svg_types] brings
    in no name that starts with an underscore.  The lookup raises
    NameError. *)
Definition _etree : result (node → bool → node) :=
  Raise (NameError "_etree").

Definition shape_to_path (shape : node) : result dobj :=
  etree_of ←r _etree;
  let svg_root := etree_of shape false in
  data_obj ←r _el_to_data svg_root;
  Ok (as_path data_obj).

(** *** class SVG *)

Record SVG := Svg {
  svg_root : handle;
  elements : option (list (handle * dobj));
}.

(** [SVG(svg_root)] *)
Definition SVG_init (root : handle) : SVG :=
  {| svg_root := root; elements := None |}.

(** [if self.elements:] holds for a list that is there and not empty. *)
Definition cache_truth (c : option (list (handle * dobj))) : bool :=
  match c with
  | Some (_ :: _) => true
  | _ => false
  end.

Definition iter_root (root : handle) (F : list node) : list node :=
  match find_node root F with
  | Some t => iter t
  | None => []
  end.

(** The loop of [_elements] over [self.svg_root.iter('*')]. *)
Fixpoint walk (els : list node) (elements : list (handle * dobj))
  : result (list (handle * dobj)) :=
  match els with
  | [] => Ok elements
  | el :: els' =>
      if negb (dict_in (ntag el) _ELEMENT_CLASSES) then walk els' elements
      else
        data_obj ←r _el_to_data el;
        walk els' (elements ++ [(nid el, data_obj)])
  end.

(** A method returns its result, [self] as the call leaves it, and the
    store. *)
Definition _elements (self : SVG) (w : world)
  : result (list (handle * dobj)) * SVG :=
  if cache_truth (elements self) then (Ok (default [] (elements self)), self)
  else
    match walk (iter_root (svg_root self) (forest w)) [] with
    | Ok els =>
        (Ok els, {| svg_root := svg_root self; elements := Some els |})
    | Raise e => (Raise e, self)
    end.

Definition shapes (self : SVG) (w : world) : result (list dobj) * SVG :=
  match _elements self w with
  | (Ok els, self') => (Ok (snd <$> els), self')
  | (Raise e, self') => (Raise e, self')
  end.

(** The loop of [shapes_to_paths]: it enumerates the very list it
    assigns to, reading slot [idx] of the list as it is by then. *)
Fixpoint convert_from (steps idx : nat) (cache : list (handle * dobj))
  : list (handle * dobj) :=
  match steps with
  | 0 => cache
  | S steps' =>
      match cache !! idx with
      | Some (el, shape) =>
          convert_from steps' (S idx) (<[idx := (el, as_path shape)]> cache)
      | None => cache
      end
  end.

Definition shapes_to_paths_inplace (self : SVG) (w : world)
  : result unit * SVG :=
  match _elements self w with
  | (Ok els, self') =>
      (Ok (),
       {| svg_root := svg_root self';
          elements := Some (convert_from (length els) 0 els) |})
  | (Raise e, self') => (Raise e, self')
  end.

(** [shapes_to_paths(inplace)]: the returned normalizer, [self] and the
    store after the call. *)
Definition shapes_to_paths (inplace : bool) (self : SVG) (w : world)
  : result SVG * SVG * world :=
  if negb inplace then
    let '(root', w') := deepcopy (svg_root self) w in
    let svg := SVG_init root' in
    match shapes_to_paths_inplace svg w' with
    | (Ok _, svg') => (Ok svg', self, w')
    | (Raise e, _) => (Raise e, self, w')
    end
  else
    match shapes_to_paths_inplace self w with
    | (Ok _, self') => (Ok self', self', w)
    | (Raise e, self') => (Raise e, self', w)
    end.

Definition apply_clip_paths (inplace : bool) (self : SVG) (w : world)
  : result SVG * SVG * world :=
  if negb inplace then
    let '(root', w') := deepcopy (svg_root self) w in
    let svg := SVG_init root' in
    (Ok svg, self, w')
  else (Ok self, self, w).

(** The first loop of [tostring]: one encoded element per cached shape. *)
Fixpoint build_swaps (els : list (handle * dobj)) (w : world)
  : result (list (handle * node)) * world :=
  match els with
  | [] => (Ok [], w)
  | (old_el, shape) :: els' =>
      match _data_to_el shape w with
      | (Ok new_el, w1) =>
          match build_swaps els' w1 with
          | (Ok swaps, w2) => (Ok ((old_el, new_el) :: swaps), w2)
          | (Raise e, w2) => (Raise e, w2)
          end
      | (Raise e, w1) => (Raise e, w1)
      end
  end.

Definition tostring (self : SVG) (w : world) : result string * world :=
  if cache_truth (elements self) then
    match build_swaps (default [] (elements self)) w with
    | (Ok swaps, w1) =>
        match _apply_swaps swaps (forest w1) with
        | (Ok _, F) =>
            (Ok (etree_tostring (svg_root self) F),
             {| forest := F; next := next w1 |})
        | (Raise e, F) => (Raise e, {| forest := F; next := next w1 |})
        end
    | (Raise e, w1) => (Raise e, w1)
    end
  else (Ok (etree_tostring (svg_root self) (forest w)), w).

(** [SVG.fromstring]; the parser hands over the tree it read. *)
Definition fromstring (x : xml) (w : world) : SVG * world :=
  let '(root, w') := etree_fromstring x w in (SVG_init root, w').

(** *** Notions the statements use *)

(** The seven shape tags. *)
Definition shape_tags : list string :=
  ["circle"; "ellipse"; "line"; "path"; "polygon"; "polyline"; "rect"].

(** [tag in _ELEMENT_CLASSES] *)
Definition recognized (tag : string) : bool := dict_in tag _ELEMENT_CLASSES.

(** Decoding a list of elements one after the other. *)
Fixpoint decode_all (els : list node) : result (list (handle * dobj)) :=
  match els with
  | [] => Ok []
  | el :: els' =>
      data_obj ←r _el_to_data el;
      rest ←r decode_all els';
      Ok ((nid el, data_obj) :: rest)
  end.

(** The recognized elements below [root], in document order. *)
Definition shape_elements (root : handle) (F : list node) : list node :=
  filter (λ el, recognized (ntag el) = true) (iter_root root F).

(** A field that [_data_to_el] leaves out. *)
Definition suppressed (field_name : string) (field_value : value) : bool :=
  bool_decide (field_name ∈ _OMIT_FIELD_IF_BLANK) && negb (truth field_value).

(** The attributes a data object is written out as, when the store takes
    every value. *)
Definition emitted (items : list (string * value)) : list (string * string) :=
  omap (λ kv, if suppressed kv.1 kv.2 then None
              else (λ s, (field_attr kv.1, s)) <$> attrib_value kv.2) items.

(** The store takes every value that is written. *)
Definition storable (items : list (string * value)) : bool :=
  forallb (λ kv, suppressed kv.1 kv.2
                 || bool_decide (is_Some (attrib_value kv.2))) items.

(** [_CLASS_ELEMENTS[cls]] *)
Definition class_tag (c : shape_class) : string :=
  namespaced
    match c with
    | SVGCircle => "circle"
    | SVGEllipse => "ellipse"
    | SVGLine => "line"
    | SVGPath => "path"
    | SVGPolygon => "polygon"
    | SVGPolyline => "polyline"
    | SVGRect => "rect"
    end.

Definition is_path (o : dobj) : Prop := dtype o = SVGPath.

(** The store takes every value of every cached shape. *)
Definition encodable (els : list (handle * dobj)) : bool :=
  forallb (λ e, storable (asdict e.2)) els.

(** The swaps [tostring] builds from identity [k] on. *)
Fixpoint new_swaps (k : handle) (els : list (handle * dobj))
  : list (handle * node) :=
  match els with
  | [] => []
  | (old_el, shape) :: els' =>
      (old_el, Node k (class_tag (dtype shape)) (emitted (asdict shape)) [])
      :: new_swaps (S k) els'
  end.

(** A cache entry under the identity its element has in a copy. *)
Definition shift (off : nat) (e : handle * dobj) : handle * dobj :=
  (off + e.1, e.2).

(** A cache entry after [shapes_to_paths]. *)
Definition to_path (e : handle * dobj) : handle * dobj :=
  (e.1, as_path e.2).

End svg.

(** ** Worked examples: a float and some documents *)

Definition is_decimal (s : string) : bool :=
  match s with
  | EmptyString => false
  | _ =>
      forallb (λ c, let k := nat_of_ascii c in
                    ((48 <=? k) && (k <=? 57) || (k =? 46))%nat)
        (list_ascii_of_string s)
  end.

(** Decimal literals kept as written stand in for floats; the attribute
    store refuses a float, as lxml's does. *)
Definition literal_float : PyFloat :=
  {| float := string;
     float_of_string := λ s, if is_decimal s then Some s else None;
     float_truth := λ s, negb (String.eqb s "0");
     float_zero := "0";
     attrib_of_float := λ _, None |}.

Definition example_outline
  : shape_class → (string → @value literal_float) → string :=
  λ _ _, "M0 0".

Definition empty_world : world := {| forest := []; next := 0 |}.

(** A shape that refers to a clip path with two children. *)
Definition clip_doc : xml :=
  Xml "svg" []
    [Xml "defs" []
       [Xml "clipPath" [("id", "c")]
          [Xml "path" [("d", "M0 0L1 0L1 1Z")] [];
           Xml "path" [("d", "M1 1L2 1L2 2Z")] []]];
     Xml "path" [("d", "M0 0L2 0L2 2Z"); ("clip-path", "url(#c)")] []].

(** A document whose root element is itself a shape. *)
Definition root_shape_doc : xml := Xml "path" [("d", "M0 0L1 1")] [].

(** A document with a circle and a path. *)
Definition circle_doc : xml :=
  Xml "svg" []
    [Xml "circle" [("r", "2"); ("fill", "red")] [];
     Xml "g" [] [Xml "path" [("d", "M0 0L1 1"); ("clip-path", "url(#c)")] []]].

(** A document without shapes. *)
Definition group_doc : xml := Xml "svg" [] [Xml "g" [("id", "a")] []].

(** A path element with a presentation attribute that is not a declared
    field. *)
Definition stroked_path : node :=
  Node 0 "path" [("d", "M0 0L1 1"); ("stroke-width", "2"); ("fill", "red")]
    [].

(** A document as [SVG.fromstring] loads it into an empty store. *)
Definition loaded (x : xml) : @SVG literal_float * world :=
  @fromstring literal_float x empty_world.

(** A path object with a clip path and one with a circle's geometry. *)
Definition clipped_path : @dobj literal_float :=
  construct SVGPath
    [("d", VStr "M0 0L1 1"); ("clip_path", VStr "url(#c)")].

Definition unit_circle : @dobj literal_float :=
  construct SVGCircle [("r", VFloat ("1" : @float literal_float))].

(** What [stroked_path] decodes to, and what that is written out as. *)
Definition stroked_path_data : @dobj literal_float :=
  construct SVGPath [("fill", VStr "red"); ("d", VStr "M0 0L1 1")].

Definition encoded_stroked_path : node :=
  Node 0 (namespaced "path")
    [("opacity", EmptyString); ("fill", "red"); ("stroke", EmptyString);
     ("d", "M0 0L1 1")] [].

(** The cache of [circle_doc] as [shapes()] fills it. *)
Definition circle_cache : list (handle * @dobj literal_float) :=
  [(1, construct SVGCircle
         [("fill", VStr "red"); ("r", VFloat ("2" : @float literal_float))]);
   (3, construct SVGPath
         [("clip_path", VStr "url(#c)"); ("d", VStr "M0 0L1 1")])].

Definition circle_svg_cached : @SVG literal_float :=
  {| svg_root := 0; elements := Some circle_cache |}.

(** ** Notions for the further properties *)

(** [etree.tostring] of a tree without identities. *)
Fixpoint render (x : xml) : string :=
  match x with
  | Xml t a cs =>
      "<" +:+ t +:+ serialize_attrib a +:+ ">"
      +:+ String.concat EmptyString (map render cs)
      +:+ "</" +:+ t +:+ ">"
  end.

(** A tree after a run of swaps: below [n], every element that a swap
    names gives its place to the swap's new element. *)
Fixpoint swap_all (swaps : list (handle * node)) (n : node) : node :=
  match n with
  | Node i t a cs =>
      Node i t a
        (map (λ c, match dict_get (nid c) swaps with
                   | Some new => new
                   | None => swap_all swaps c
                   end) cs)
  end.

(** The elements a run of swaps takes out of their trees. *)
Definition detached (swaps : list (handle * node)) (F : list node)
  : list node :=
  omap (λ sw, find_node sw.1 F) swaps.

Section svg_more.
Context `{PyFloat}.

(** The element a shape is written out as, without identity. *)
Definition encoded_xml (shape : dobj) : xml :=
  Xml (class_tag (dtype shape)) (emitted (asdict shape)) [].

(** The document [tostring] aims at: below [n], every element the cache
    holds a shape for gives its place to the element encoded from that
    shape. *)
Fixpoint encode_tree (els : list (handle * dobj)) (n : node) : xml :=
  match n with
  | Node _ t a cs =>
      Xml t a
        (map (λ c, match dict_get (nid c) els with
                   | Some shape => encoded_xml shape
                   | None => encode_tree els c
                   end) cs)
  end.

(** Every declared field of the object holds a string and is declared
    as one. *)
Definition string_object (o : dobj) : Prop :=
  ∀ f, f ∈ fields (dtype o) →
       f_type f = TStr ∧ ∃ s, dget o (f_name f) = VStr s.

(** Every numeric attribute the element has for class [c] converts. *)
Definition floats_convert (c : shape_class) (el : node) : Prop :=
  ∀ f s, f ∈ fields c → f_type f = TFloat →
         dict_get (field_attr (f_name f)) (nattrib el) = Some s →
         is_Some (float_of_string s).

End svg_more.

(** New elements of a run of swaps: childless, with identities that are
    not in the store. *)
Definition fresh_leaves (F : list node) (swaps : list (handle * node))
  : Prop :=
  Forall (λ sw : handle * node, nchildren sw.2 = [] ∧ nid sw.2 ∉ ids F)
    swaps.

(** The cache of [clip_doc] as [shapes()] fills it, and the cache of
    [root_shape_doc]. *)
Definition clip_cache : list (handle * @dobj literal_float) :=
  [(3, construct SVGPath [("d", VStr "M0 0L1 0L1 1Z")]);
   (4, construct SVGPath [("d", VStr "M1 1L2 1L2 2Z")]);
   (5, construct SVGPath
         [("clip_path", VStr "url(#c)"); ("d", VStr "M0 0L2 0L2 2Z")])].

Definition clip_svg_cached : @SVG literal_float :=
  {| svg_root := 0; elements := Some clip_cache |}.

Definition root_shape_cache : list (handle * @dobj literal_float) :=
  [(0, construct SVGPath [("d", VStr "M0 0L1 1")])].

(** [stroked_path] with its declared attributes in another order, its
    undeclared one gone, a child and another identity. *)
Definition reordered_path : node :=
  Node 7 "path" [("fill", "red"); ("d", "M0 0L1 1")] [Node 8 "g" [] []].




(** * Properties *)

Local Open Scope nat_scope.
Local Open Scope list_scope.

(** ** Facts about dicts *)

Ltac solve_elem :=
  repeat first [apply list_elem_of_here | apply list_elem_of_further].

Section dict_facts.
Context {K V : Type} `{EqDecision K}.
Implicit Types (k : K) (v : V) (d : list (K * V)).

Lemma dict_get_set_eq k v d : dict_get k (dict_set k v d) = Some v.
Proof.
  induction d as [|[k' v'] d IH]; simpl.
  - by rewrite decide_True.
  - case_decide; simpl; [by rewrite decide_True|by rewrite decide_False].
Qed.

Lemma dict_get_set_ne k k' v d :
  k ≠ k' → dict_get k' (dict_set k v d) = dict_get k' d.
Proof.
  intros Hne. induction d as [|[k0 v0] d IH]; simpl.
  - by rewrite decide_False.
  - destruct (decide (k0 = k)) as [->|]; simpl.
    + by rewrite !decide_False.
    + by rewrite IH.
Qed.

Lemma dict_get_None k d : k ∉ d.*1 → dict_get k d = None.
Proof.
  induction d as [|[k' v'] d IH]; simpl; [done|].
  intros Hn. rewrite not_elem_of_cons in Hn. destruct Hn as [Hne Hn].
  rewrite decide_False by done. auto.
Qed.

Lemma dict_get_Some_elem k v d : dict_get k d = Some v → (k, v) ∈ d.
Proof.
  induction d as [|[k' v'] d IH]; simpl; [done|].
  case_decide; [intros [= ->]; subst; left|right; auto].
Qed.

Lemma dict_set_fresh k v d :
  dict_get k d = None → dict_set k v d = (d ++ [(k, v)])%list.
Proof.
  induction d as [|[k' v'] d IH]; simpl; [done|].
  case_decide; [done|]. intros Hn. by rewrite IH.
Qed.

Lemma dict_get_app k d1 d2 :
  dict_get k (d1 ++ d2)%list
  = match dict_get k d1 with Some v => Some v | None => dict_get k d2 end.
Proof.
  induction d1 as [|[k' v'] d IH]; simpl; [done|]. by case_decide.
Qed.

End dict_facts.

(** ** Facts about the element tree *)

Section tree_facts.
Implicit Types (n m t c : node) (F : list node) (h p o : handle).

Lemma node_forall_ind (P : node → Prop) :
  (∀ i tg a cs, Forall P cs → P (Node i tg a cs)) → ∀ n, P n.
Proof.
  intros Hnode. fix IH 1. intros [i tg a cs]. apply Hnode.
  induction cs as [|c cs IHcs]; constructor; [apply IH|apply IHcs].
Qed.

Lemma iter_unfold n : iter n = n :: (nchildren n ≫= iter).
Proof. by destruct n. Qed.

Lemma iter_self n : n ∈ iter n.
Proof. rewrite iter_unfold. left. Qed.

Lemma nodes_app F G : nodes (F ++ G) = (nodes F ++ nodes G)%list.
Proof. apply bind_app. Qed.

Lemma ids_app F G : ids (F ++ G) = (ids F ++ ids G)%list.
Proof. unfold ids. by rewrite nodes_app, fmap_app. Qed.

Lemma nodes_singleton t : nodes [t] = iter t.
Proof. unfold nodes. rewrite bind_cons. apply app_nil_r. Qed.

Lemma nodes_root t F : t ∈ F → t ∈ nodes F.
Proof.
  intros Ht. apply list_elem_of_bind. exists t. split; [apply iter_self|done].
Qed.

(** The descendants of an element of a tree form a segment of the tree's
    document order. *)
Lemma iter_segment t m :
  m ∈ iter t → ∃ l1 l2, iter t = (l1 ++ iter m ++ l2)%list.
Proof.
  revert m. induction t as [i tg a cs IH] using node_forall_ind.
  intros m. rewrite iter_unfold. cbn [nchildren].
  intros [->|Hm]%elem_of_cons.
  { exists [], []. by rewrite app_nil_r, <- iter_unfold. }
  apply list_elem_of_bind in Hm as (c & Hm & Hc).
  apply list_elem_of_split in Hc as (cs1 & cs2 & ->).
  apply Forall_app in IH as [_ IH]. apply Forall_cons in IH as [IHc _].
  destruct (IHc m Hm) as (l1 & l2 & Heq).
  exists (Node i tg a (cs1 ++ c :: cs2) :: (cs1 ≫= iter) ++ l1)%list,
         (l2 ++ (cs2 ≫= iter))%list.
  rewrite bind_app, bind_cons, Heq. cbn [app].
  by rewrite <- !app_assoc.
Qed.

Lemma nodes_segment F m :
  m ∈ nodes F → ∃ l1 l2, nodes F = (l1 ++ iter m ++ l2)%list.
Proof.
  intros (t & Hm & Ht)%list_elem_of_bind.
  apply list_elem_of_split in Ht as (F1 & F2 & ->).
  destruct (iter_segment t m Hm) as (l1 & l2 & Heq).
  exists (nodes F1 ++ l1)%list, (l2 ++ nodes F2)%list.
  unfold nodes. rewrite bind_app, bind_cons, Heq.
  by rewrite <- !app_assoc.
Qed.

Lemma iter_nodes F m m' : m ∈ nodes F → m' ∈ iter m → m' ∈ nodes F.
Proof.
  intros (l1 & l2 & ->)%nodes_segment Hm'.
  rewrite !elem_of_app. auto.
Qed.

(** Parents and children. *)
Lemma ids_kids_tree t : nid <$> iter t ≡ₚ nid t :: kids (iter t).
Proof.
  induction t as [i tg a cs IH] using node_forall_ind.
  rewrite iter_unfold. cbn [nchildren nid]. unfold kids.
  rewrite fmap_cons, bind_cons. cbn [nchildren nid].
  constructor.
  induction cs as [|c cs IHcs]; [done|].
  apply Forall_cons in IH as [IHc IH]. specialize (IHcs IH).
  rewrite bind_cons, fmap_app, bind_app, fmap_cons, IHc, IHcs.
  unfold kids. cbn [app].
  constructor. rewrite !app_assoc. apply Permutation_app_tail.
  apply Permutation_app_comm.
Qed.

Lemma ids_kids F : ids F ≡ₚ (nid <$> F) ++ child_ids F.
Proof.
  unfold ids, child_ids, kids, nodes.
  induction F as [|t F IH]; [done|].
  rewrite !bind_cons, fmap_app, bind_app, fmap_cons, IH, ids_kids_tree.
  unfold kids. cbn [app]. constructor.
  rewrite !app_assoc. apply Permutation_app_tail, Permutation_app_comm.
Qed.

Lemma NoDup_child_ids F : NoDup (ids F) → NoDup (child_ids F).
Proof. rewrite ids_kids. by intros (_ & _ & ?)%NoDup_app. Qed.

Lemma NoDup_root_not_child F t :
  NoDup (ids F) → t ∈ F → nid t ∉ child_ids F.
Proof.
  rewrite ids_kids. intros (_ & Hdisj & _)%NoDup_app Ht.
  apply Hdisj. by apply list_elem_of_fmap_2.
Qed.

Lemma NoDup_iter F m : NoDup (ids F) → m ∈ nodes F → NoDup (nid <$> iter m).
Proof.
  intros Hnd (l1 & l2 & Heq)%nodes_segment. unfold ids in Hnd.
  rewrite Heq, !fmap_app in Hnd.
  by apply NoDup_app in Hnd as (_ & _ & (? & _ & _)%NoDup_app).
Qed.

Lemma NoDup_not_below_itself F m :
  NoDup (ids F) → m ∈ nodes F → nid m ∉ kids (iter m).
Proof.
  intros Hnd Hm. pose proof (NoDup_iter F m Hnd Hm) as Hi.
  rewrite ids_kids_tree in Hi. by apply NoDup_cons in Hi as [? _].
Qed.

Lemma elem_of_kids (l : list node) h :
  h ∈ kids l ↔ ∃ m c, m ∈ l ∧ c ∈ nchildren m ∧ nid c = h.
Proof.
  unfold kids. rewrite list_elem_of_bind. split.
  - intros (m & (c & -> & Hc)%list_elem_of_fmap & Hm). eauto.
  - intros (m & c & Hm & Hc & <-). exists m. split; [|done].
    by apply list_elem_of_fmap_2.
Qed.

Lemma kids_unique_parent (l : list node) m m0 c c0 :
  NoDup (kids l) → m ∈ l → m0 ∈ l →
  c ∈ nchildren m → c0 ∈ nchildren m0 → nid c = nid c0 → nid m = nid m0.
Proof.
  induction l as [|a l IH]; [by intros _ ?%elem_of_nil|].
  unfold kids. rewrite bind_cons. fold (kids l).
  intros (_ & Hdisj & Hnd)%NoDup_app Hm Hm0 Hc Hc0 Heq.
  apply elem_of_cons in Hm as [->|Hm]; apply elem_of_cons in Hm0 as [->|Hm0].
  - done.
  - exfalso. apply (Hdisj (nid c)); [by apply list_elem_of_fmap_2|].
    apply elem_of_kids. exists m0, c0. by rewrite Heq.
  - exfalso. apply (Hdisj (nid c0)); [by apply list_elem_of_fmap_2|].
    apply elem_of_kids. exists m, c. done.
  - by apply (IH Hnd Hm Hm0 Hc Hc0).
Qed.

(** [getparent] and [find_node] *)
Lemma getparent_None h F : getparent h F = None ↔ h ∉ child_ids F.
Proof.
  unfold getparent, child_ids, kids. rewrite fmap_None, head_None.
  split.
  - intros Hf (m & Hh & Hm)%list_elem_of_bind.
    assert (m ∈ filter (λ m, h ∈ nid <$> nchildren m) (nodes F)) as Hin
      by (by apply list_elem_of_filter).
    rewrite Hf in Hin. by apply elem_of_nil in Hin.
  - intros Hn. apply elem_of_nil_inv. intros m [Hh Hm]%list_elem_of_filter.
    apply Hn, list_elem_of_bind. eauto.
Qed.

Lemma getparent_Some h F p :
  getparent h F = Some p →
  ∃ m c, m ∈ nodes F ∧ nid m = p ∧ c ∈ nchildren m ∧ nid c = h.
Proof.
  unfold getparent. intros (m & Hhd & ->)%fmap_Some.
  apply head_Some_elem_of, list_elem_of_filter in Hhd as [Hh Hm].
  apply list_elem_of_fmap in Hh as (c & -> & Hc). by exists m, c.
Qed.

Lemma find_node_Some h F t : find_node h F = Some t → t ∈ nodes F ∧ nid t = h.
Proof.
  unfold find_node. intros Hhd.
  apply head_Some_elem_of, list_elem_of_filter in Hhd as [? ?]. done.
Qed.

Lemma find_node_None h F : find_node h F = None ↔ h ∉ ids F.
Proof.
  unfold find_node, ids. rewrite head_None. split.
  - intros Hf (m & -> & Hm)%list_elem_of_fmap.
    assert (m ∈ filter (λ n, nid n = nid m) (nodes F)) as Hin
      by (by apply list_elem_of_filter).
    rewrite Hf in Hin. by apply elem_of_nil in Hin.
  - intros Hn. apply elem_of_nil_inv. intros m [Hh Hm]%list_elem_of_filter.
    apply Hn. rewrite <- Hh. by apply list_elem_of_fmap_2.
Qed.

Lemma find_node_app_l h F G t :
  find_node h F = Some t → find_node h (F ++ G) = Some t.
Proof.
  unfold find_node. rewrite nodes_app, filter_app.
  destruct (filter _ (nodes F)); [done|]. done.
Qed.

Lemma find_node_app_r h F G :
  h ∉ ids F → find_node h (F ++ G) = find_node h G.
Proof.
  intros Hn%find_node_None. unfold find_node in *.
  rewrite nodes_app, filter_app. apply head_None in Hn. by rewrite Hn.
Qed.

Lemma find_node_root h t : nid t = h → find_node h [t] = Some t.
Proof.
  intros <-. unfold find_node, nodes. rewrite bind_cons, iter_unfold.
  cbn [app]. rewrite filter_cons, decide_True by done. done.
Qed.

(** [replace] *)
Lemma nid_replace_at p o n t : nid (replace_at p o n t) = nid t.
Proof. by destruct t. Qed.

Lemma nchildren_replace_at p o n t :
  nchildren (replace_at p o n t)
  = map (λ c, if bool_decide (nid t = p ∧ nid c = o) then n
              else replace_at p o n c) (nchildren t).
Proof. by destruct t. Qed.

Lemma iter_replace_at p o n t m' :
  m' ∈ iter (replace_at p o n t) →
  m' ∈ iter n ∨ ∃ m, m ∈ iter t ∧ m' = replace_at p o n m.
Proof.
  revert m'. induction t as [i tg a cs IH] using node_forall_ind.
  intros m'. rewrite iter_unfold, nchildren_replace_at.
  cbn [nchildren nid].
  intros [->|Hm']%elem_of_cons.
  { right. eexists. split; [apply iter_self|done]. }
  apply list_elem_of_bind in Hm' as (c' & Hm' & Hc').
  apply list_elem_of_fmap in Hc' as (c & -> & Hc).
  rewrite Forall_forall in IH.
  case_bool_decide; [by left|].
  destruct (IH c Hc m' Hm') as [?|(m & Hm & ->)]; [by left|].
  right. exists m. split; [|done].
  rewrite iter_unfold. right. apply list_elem_of_bind. eauto.
Qed.

Lemma kids_replace_at p o n F x :
  nchildren n = [] →
  x ∈ kids (nodes (replace_at p o n <$> F)) →
  x = nid n
  ∨ ∃ m c, m ∈ nodes F ∧ c ∈ nchildren m ∧ nid c = x
           ∧ ¬ (nid m = p ∧ nid c = o).
Proof.
  intros Hleaf (m' & c' & Hm' & Hc' & <-)%elem_of_kids.
  apply list_elem_of_bind in Hm' as (t' & Hm' & Ht').
  apply list_elem_of_fmap in Ht' as (t & -> & Ht).
  apply iter_replace_at in Hm' as [Hm'|(m & Hm & ->)].
  { rewrite iter_unfold, Hleaf in Hm'. apply list_elem_of_singleton in Hm'.
    subst m'. rewrite Hleaf in Hc'. by apply elem_of_nil in Hc'. }
  rewrite nchildren_replace_at in Hc'.
  apply list_elem_of_fmap in Hc' as (c & -> & Hc).
  case_bool_decide as Hcond; [by left|].
  right. exists m, c. rewrite nid_replace_at.
  split; [|done]. apply list_elem_of_bind. eauto.
Qed.

Lemma child_ids_replace p o n F x :
  nchildren n = [] →
  x ∈ child_ids (replace p o n F) → x = nid n ∨ x ∈ child_ids F.
Proof.
  intros Hleaf. unfold child_ids, kids, replace. rewrite nodes_app.
  fold (kids (nodes (replace_at p o n <$> F) ++ nodes (option_list (find_node o F)))).
  unfold kids. rewrite bind_app, elem_of_app.
  intros [Hx|Hx].
  - apply (kids_replace_at p o n F x Hleaf) in Hx as [?|(m & c & Hm & Hc & <- & _)];
      [by left|right].
    apply elem_of_kids. eauto.
  - right. apply elem_of_kids in Hx as (m & c & Hm & Hc & <-).
    destruct (find_node o F) as [t|] eqn:Hf; [|by apply elem_of_nil in Hm].
    apply find_node_Some in Hf as [Ht _].
    change (option_list (Some t)) with [t] in Hm.
    rewrite nodes_singleton in Hm.
    apply elem_of_kids. exists m, c. split; [|done].
    by apply (iter_nodes F t).
Qed.

Lemma replaced_has_no_parent p o n F :
  NoDup (ids F) → getparent o F = Some p →
  nchildren n = [] → nid n ≠ o →
  o ∉ child_ids (replace p o n F).
Proof.
  intros Hnd Hp Hleaf Hne. unfold child_ids, kids, replace. rewrite nodes_app.
  fold (kids (nodes (replace_at p o n <$> F) ++ nodes (option_list (find_node o F)))).
  unfold kids. rewrite bind_app, elem_of_app.
  apply getparent_Some in Hp as (m0 & c0 & Hm0 & Hp & Hc0 & Ho).
  intros [Hx|Hx].
  - apply (kids_replace_at p o n F o Hleaf) in Hx
      as [?|(m & c & Hm & Hc & Hco & Hcond)]; [done|].
    apply Hcond. split; [|done]. rewrite <- Hp.
    apply (kids_unique_parent (nodes F) m m0 c c0); try done.
    + by apply NoDup_child_ids.
    + by rewrite Hco.
  - destruct (find_node o F) as [t|] eqn:Hf;
      [|by apply elem_of_kids in Hx as (m & c & Hm%elem_of_nil & _)].
    apply find_node_Some in Hf as [Ht Hto].
    change (option_list (Some t)) with [t] in Hx.
    rewrite nodes_singleton in Hx.
    apply (NoDup_not_below_itself F t Hnd Ht). by rewrite Hto.
Qed.

(** [deepcopy] *)
Lemma nid_relabel off t : nid (relabel off t) = off + nid t.
Proof. by destruct t. Qed.

Lemma ntag_relabel off t : ntag (relabel off t) = ntag t.
Proof. by destruct t. Qed.

Lemma nattrib_relabel off t : nattrib (relabel off t) = nattrib t.
Proof. by destruct t. Qed.

Lemma iter_relabel off t : iter (relabel off t) = relabel off <$> iter t.
Proof.
  induction t as [i tg a cs IH] using node_forall_ind.
  cbn [relabel iter]. rewrite fmap_cons. f_equal.
  induction cs as [|c cs IHcs]; [done|].
  apply Forall_cons in IH as [IHc IH].
  cbn [map]. rewrite !bind_cons, fmap_app, IHc. f_equal. by apply IHcs.
Qed.

Lemma strip_relabel off t : strip (relabel off t) = strip t.
Proof.
  induction t as [i tg a cs IH] using node_forall_ind.
  cbn [relabel strip]. f_equal. rewrite map_map.
  apply map_ext_Forall, IH.
Qed.

Lemma serialize_relabel off t : serialize (relabel off t) = serialize t.
Proof.
  induction t as [i tg a cs IH] using node_forall_ind.
  cbn [relabel serialize]. by rewrite map_map, (map_ext_Forall _ _ IH).
Qed.

Lemma ids_relabel off t : ids [relabel off t] = (λ i, off + i) <$> ids [t].
Proof.
  unfold ids. rewrite !nodes_singleton, iter_relabel, <- !list_fmap_compose.
  apply list_fmap_ext. intros ? m _. apply nid_relabel.
Qed.

Lemma wf_ids_lt w h : wf w → h ∈ ids (forest w) → h < next w.
Proof. intros [_ Hlt] Hh. rewrite Forall_forall in Hlt. auto. Qed.

Lemma wf_deepcopy w root t :
  wf w → find_node root (forest w) = Some t →
  wf {| forest := forest w ++ [relabel (next w) t];
        next := next w + next w |}.
Proof.
  intros Hwf Ht. pose proof Hwf as [Hnd Hlt].
  apply find_node_Some in Ht as [Ht _].
  assert (Hsub : ∀ i, i ∈ ids [t] → i ∈ ids (forest w)).
  { intros i (m & -> & Hm)%list_elem_of_fmap. rewrite nodes_singleton in Hm.
    apply list_elem_of_fmap_2. by apply (iter_nodes _ t). }
  split; cbn [forest next]; rewrite ids_app, ids_relabel.
  - apply NoDup_app. split; [done|]. split.
    + intros i Hi (j & -> & Hj)%list_elem_of_fmap.
      apply (wf_ids_lt w) in Hi; [lia|done].
    + apply NoDup_fmap_2; [intros ???; lia|].
      unfold ids. rewrite nodes_singleton. by apply (NoDup_iter (forest w)).
  - apply Forall_app. split.
    + eapply Forall_impl; [exact Hlt|]. intros; simpl in *; lia.
    + apply Forall_fmap, Forall_forall. intros i Hi%Hsub.
      apply (wf_ids_lt w) in Hi; [simpl; lia|done].
Qed.

Lemma find_node_deepcopy w root t :
  wf w →
  find_node (next w + root) (forest w ++ [relabel (next w) t])
  = if decide (nid t = root) then Some (relabel (next w) t)
    else find_node (next w + root) [relabel (next w) t].
Proof.
  intros Hwf. rewrite find_node_app_r.
  - case_decide as Hr; [|done].
    apply find_node_root. rewrite nid_relabel. lia.
  - intros Hi. apply (wf_ids_lt w) in Hi; [lia|done].
Qed.

(** Renaming identities: an injective renaming that fixes the handles a
    run of swaps looks at does not change what the run does. *)
Section renaming.
Context (ρ : handle → handle) `{!Inj (=) (=) ρ}.

Lemma nid_rename t : nid (rename ρ t) = ρ (nid t).
Proof. by destruct t. Qed.

Lemma nchildren_rename t : nchildren (rename ρ t) = rename ρ <$> nchildren t.
Proof. by destruct t. Qed.

Lemma iter_rename t : iter (rename ρ t) = rename ρ <$> iter t.
Proof.
  induction t as [i tg a cs IH] using node_forall_ind.
  cbn [rename iter]. rewrite fmap_cons. f_equal.
  induction cs as [|c cs IHcs]; [done|].
  apply Forall_cons in IH as [IHc IH].
  cbn [map]. rewrite !bind_cons, fmap_app, IHc. f_equal. by apply IHcs.
Qed.

Lemma nodes_rename F : nodes (rename ρ <$> F) = rename ρ <$> nodes F.
Proof.
  unfold nodes. induction F as [|t F IH]; [done|].
  by rewrite fmap_cons, !bind_cons, fmap_app, iter_rename, IH.
Qed.

Lemma serialize_rename t : serialize (rename ρ t) = serialize t.
Proof.
  induction t as [i tg a cs IH] using node_forall_ind.
  cbn [rename serialize]. by rewrite map_map, (map_ext_Forall _ _ IH).
Qed.

Lemma rename_fixed t : Forall (λ i, ρ i = i) (ids [t]) → rename ρ t = t.
Proof.
  unfold ids. rewrite nodes_singleton.
  induction t as [i tg a cs IH] using node_forall_ind.
  cbn [iter]. rewrite fmap_cons. intros [Hi Hcs]%Forall_cons.
  cbn [rename nid] in *. rewrite Hi. f_equal.
  induction cs as [|c cs IHcs]; [done|].
  apply Forall_cons in IH as [IHc IH].
  rewrite bind_cons, fmap_app in Hcs. apply Forall_app in Hcs as [Hc Hcs].
  cbn [map]. by rewrite (IHc Hc), (IHcs IH Hcs).
Qed.

Lemma rename_forest_fixed F :
  Forall (λ i, ρ i = i) (ids F) → rename ρ <$> F = F.
Proof.
  induction F as [|t F IH]; [done|].
  change (t :: F) with ([t] ++ F)%list. rewrite ids_app.
  intros [Ht HF]%Forall_app. cbn [app].
  by rewrite fmap_cons, (rename_fixed t Ht), (IH HF).
Qed.

Lemma filter_fmap_iff {A B} (f : A → B) (P : B → Prop) (Q : A → Prop)
    `{∀ x, Decision (P x)} `{∀ x, Decision (Q x)} (l : list A) :
  (∀ x, P (f x) ↔ Q x) → filter P (f <$> l) = f <$> filter Q l.
Proof.
  intros HPQ. induction l as [|x l IH]; [done|].
  rewrite fmap_cons, !filter_cons, IH.
  destruct (decide (P (f x))) as [HP|HP], (decide (Q x)) as [HQ|HQ];
    try done; by apply HPQ in HP || apply HPQ in HQ.
Qed.

Lemma find_node_rename o F :
  ρ o = o → find_node o (rename ρ <$> F) = rename ρ <$> find_node o F.
Proof.
  intros Ho. unfold find_node. rewrite nodes_rename.
  rewrite (filter_fmap_iff (rename ρ) _ (λ n, nid n = o)).
  - by destruct (filter _ (nodes F)).
  - intros m. rewrite nid_rename. split; [|by intros ->].
    rewrite <- Ho at 1. apply (inj ρ).
Qed.

Lemma getparent_rename o F :
  ρ o = o → getparent o (rename ρ <$> F) = ρ <$> getparent o F.
Proof.
  intros Ho. unfold getparent. rewrite nodes_rename.
  rewrite (filter_fmap_iff (rename ρ) _ (λ m, o ∈ nid <$> nchildren m)).
  - destruct (filter _ (nodes F)) as [|m l]; [done|].
    cbn. by rewrite nid_rename.
  - intros m. rewrite nchildren_rename, <- list_fmap_compose.
    rewrite !list_elem_of_fmap. split.
    + intros (c & Hc & Hin). exists c. split; [|done].
      cbn in Hc. rewrite nid_rename, <- Ho in Hc. by apply (inj ρ) in Hc.
    + intros (c & -> & Hin). exists c. split; [|done].
      cbn. rewrite nid_rename. by rewrite Ho.
Qed.

Lemma replace_at_rename p o n t :
  ρ o = o →
  rename ρ (replace_at p o n t)
  = replace_at (ρ p) o (rename ρ n) (rename ρ t).
Proof.
  intros Ho. induction t as [i tg a cs IH] using node_forall_ind.
  cbn [rename replace_at]. f_equal. rewrite !map_map.
  apply map_ext_Forall. eapply Forall_impl; [exact IH|].
  intros c Hc. cbn beta. rewrite nid_rename.
  destruct (decide (i = p ∧ nid c = o)) as [Hcond|Hcond].
  - rewrite !bool_decide_eq_true_2; [done| |done].
    destruct Hcond as [-> ->]. done.
  - rewrite !bool_decide_eq_false_2; [done| |done].
    intros [Hi Hn]. apply Hcond. split; [by apply (inj ρ)|].
    rewrite <- Ho in Hn. by apply (inj ρ) in Hn.
Qed.

Lemma replace_rename p o n F :
  ρ o = o →
  rename ρ <$> replace p o n F
  = replace (ρ p) o (rename ρ n) (rename ρ <$> F).
Proof.
  intros Ho. unfold replace.
  rewrite fmap_app, <- !list_fmap_compose, find_node_rename by done.
  f_equal.
  - apply list_fmap_ext. intros ? t _. cbn. by apply replace_at_rename.
  - by destruct (find_node o F).
Qed.

Lemma _apply_swaps_rename (swaps : list (handle * node)) F :
  Forall (λ sw : handle * node, ρ sw.1 = sw.1) swaps →
  _apply_swaps ((λ sw, (sw.1, rename ρ sw.2)) <$> swaps) (rename ρ <$> F)
  = ((_apply_swaps swaps F).1, rename ρ <$> (_apply_swaps swaps F).2).
Proof.
  revert F. induction swaps as [|[o n] swaps IH]; intros F Hfix; [done|].
  apply Forall_cons in Hfix as [Ho Hfix]. cbn in Ho.
  rewrite fmap_cons. cbn [_apply_swaps fst snd].
  rewrite getparent_rename by done.
  destruct (getparent o F) as [p|]; [|done]. cbn [fmap option_fmap option_map].
  rewrite <- replace_rename by done. by apply IH.
Qed.

Lemma etree_tostring_rename root F :
  ρ root = root → etree_tostring root (rename ρ <$> F) = etree_tostring root F.
Proof.
  intros Hr. unfold etree_tostring. rewrite find_node_rename by done.
  destruct (find_node root F); [apply serialize_rename|done].
Qed.

End renaming.

Global Instance past_inj k : Inj (=) (=) (past k).
Proof.
  intros i j. unfold past. repeat case_decide; lia.
Qed.

(** A tree that holds none of the handles a run of swaps looks at stays
    as it is and does not change what the run does to the other trees. *)
Lemma replace_at_inert p o n c : o ∉ ids [c] → replace_at p o n c = c.
Proof.
  unfold ids. rewrite nodes_singleton.
  induction c as [i tg a cs IH] using node_forall_ind.
  cbn [iter]. rewrite fmap_cons, not_elem_of_cons. intros [_ Hcs].
  cbn [replace_at]. f_equal.
  induction cs as [|c cs IHcs]; [done|].
  apply Forall_cons in IH as [IHc IH].
  rewrite bind_cons, fmap_app, not_elem_of_app in Hcs.
  destruct Hcs as [Hc Hcs]. cbn [map].
  rewrite (IHcs IH Hcs), (IHc Hc).
  rewrite bool_decide_eq_false_2; [done|].
  intros [_ Hn]. apply Hc. rewrite <- Hn.
  apply list_elem_of_fmap_2, iter_self.
Qed.

Lemma filter_nodes_insert (P : node → Prop) `{∀ x, Decision (P x)}
    F1 c F2 :
  (∀ m, m ∈ iter c → ¬ P m) →
  filter P (nodes (F1 ++ c :: F2)) = filter P (nodes (F1 ++ F2)).
Proof.
  intros Hc. change (c :: F2) with ([c] ++ F2)%list.
  rewrite !nodes_app, nodes_singleton, !filter_app.
  assert (filter P (iter c) = []) as ->; [|done].
  apply elem_of_nil_inv. intros m [HP Hm]%list_elem_of_filter.
  by apply (Hc m).
Qed.

Lemma find_node_insert o F1 c F2 :
  o ∉ ids [c] → find_node o (F1 ++ c :: F2) = find_node o (F1 ++ F2).
Proof.
  intros Ho. unfold find_node. rewrite filter_nodes_insert; [done|].
  intros m Hm Hn. apply Ho. unfold ids. rewrite nodes_singleton, <- Hn.
  by apply list_elem_of_fmap_2.
Qed.

Lemma getparent_insert o F1 c F2 :
  o ∉ ids [c] → getparent o (F1 ++ c :: F2) = getparent o (F1 ++ F2).
Proof.
  intros Ho. unfold getparent. rewrite filter_nodes_insert; [done|].
  intros m Hm (x & -> & Hx)%list_elem_of_fmap. apply Ho.
  unfold ids. rewrite nodes_singleton. apply list_elem_of_fmap_2.
  rewrite <- (nodes_singleton c). apply (iter_nodes [c] m).
  - by rewrite nodes_singleton.
  - rewrite iter_unfold. right. apply list_elem_of_bind.
    exists x. split; [apply iter_self|done].
Qed.

Lemma _apply_swaps_insert (swaps : list (handle * node)) c F1 F2 :
  Forall (λ sw : handle * node, sw.1 ∉ ids [c]) swaps →
  ∃ r G1 G2,
    _apply_swaps swaps (F1 ++ F2) = (r, G1 ++ G2)
    ∧ _apply_swaps swaps (F1 ++ c :: F2) = (r, G1 ++ c :: G2).
Proof.
  revert F1 F2.
  induction swaps as [|[o n] swaps IH]; intros F1 F2 Hin.
  { by exists (Ok ()), F1, F2. }
  apply Forall_cons in Hin as [Ho Hin]. cbn in Ho. cbn [_apply_swaps].
  rewrite getparent_insert by done.
  destruct (getparent o (F1 ++ F2)) as [p|]; [|by exists (Raise AttributeError), F1, F2].
  unfold replace. rewrite find_node_insert by done.
  rewrite !fmap_app, fmap_cons, replace_at_inert by done.
  rewrite <- !app_assoc. cbn [app].
  change (?c :: ?l ++ ?d)%list with (c :: (l ++ d))%list.
  apply (IH _ (_ ++ _)%list Hin).
Qed.

Lemma etree_tostring_insert root F1 c F2 :
  root ∉ ids [c] →
  etree_tostring root (F1 ++ c :: F2) = etree_tostring root (F1 ++ F2).
Proof. intros Hr. unfold etree_tostring. by rewrite find_node_insert. Qed.

(** [etree.fromstring] *)
Lemma xml_forall_ind (P : xml → Prop) :
  (∀ tg a cs, Forall P cs → P (Xml tg a cs)) → ∀ x, P x.
Proof.
  intros Hxml. fix IH 1. intros [tg a cs]. apply Hxml.
  induction cs as [|c cs IHcs]; constructor; [apply IH|apply IHcs].
Qed.

Lemma ids_label k x : ids [label k x] = seq k (xsize x).
Proof.
  unfold ids. rewrite nodes_singleton. revert k.
  induction x as [tg a cs IH] using xml_forall_ind. intros k.
  cbn [label iter xsize]. rewrite fmap_cons. cbn [nid seq]. f_equal.
  generalize (S k). clear k.
  induction cs as [|c cs IHcs]; intros k; [done|].
  apply Forall_cons in IH as [IHc IH].
  cbn [label_children map list_sum]. rewrite bind_cons, fmap_app.
  rewrite IHc, (IHcs IH). symmetry. apply seq_app.
Qed.

Lemma wf_fromstring x w : wf w → wf (etree_fromstring x w).2.
Proof.
  intros [Hnd Hlt]. unfold etree_fromstring. cbn [snd].
  split; cbn [forest next]; rewrite ids_app, ids_label.
  - apply NoDup_app. split; [done|]. split; [|apply NoDup_seq].
    rewrite Forall_forall in Hlt.
    intros i Hi%Hlt Hs%elem_of_seq. lia.
  - apply Forall_app. split.
    + eapply Forall_impl; [exact Hlt|]. intros; simpl in *; lia.
    + apply Forall_forall. intros i Hs%elem_of_seq. lia.
Qed.

End tree_facts.

(** ** Decoding, encoding and the normalizer *)

Section properties.
Context `{PyFloat}.
Variable outline : shape_class → (string → value) → string.

Lemma dict_in_get {K V} `{EqDecision K} (k : K) (d : list (K * V)) :
  dict_in k d = true ↔ is_Some (dict_get k d).
Proof.
  unfold dict_in. destruct (dict_get k d); split; intros; eauto; try done.
Qed.

Ltac pick_tag :=
  let try_tag k :=
    (exists k; split;
     [unfold shape_tags; solve_elem
     |first [left; reflexivity | right; vm_compute; reflexivity]]) in
  first [try_tag "circle" | try_tag "ellipse" | try_tag "line"
        | try_tag "path" | try_tag "polygon" | try_tag "polyline"
        | try_tag "rect"].

Lemma recognized_shape_tags (tag : string) :
  recognized tag = true ↔
  ∃ k, k ∈ shape_tags ∧ (tag = k ∨ tag = namespaced k).
Proof.
  split.
  - unfold recognized, dict_in.
    assert (Hk : ∀ k, k ∈ shape_tags ↔ k ∈ shape_tags) by done.
    intros Hin.
    destruct (dict_get tag _ELEMENT_CLASSES) eqn:E; [|done].
    revert E. let l := eval vm_compute in _ELEMENT_CLASSES in change _ELEMENT_CLASSES with l. cbn [dict_get].
    repeat (case_decide; [subst tag; intros _; pick_tag|]).
    done.
  - intros (k & Hk & Ht).
    unfold shape_tags in Hk.
    repeat (apply elem_of_cons in Hk as [->|Hk]; [destruct Ht as [->| ->]; vm_compute; reflexivity|]).
    by apply elem_of_nil in Hk.
Qed.

Lemma bad_tag_raises (el : node) :
  recognized (ntag el) = false →
  _el_to_data el = Raise (ValueError ("Bad tag <" +:+ ntag el +:+ ">")).
Proof.
  unfold recognized, dict_in, _el_to_data.
  by destruct (dict_get (ntag el) _ELEMENT_CLASSES).
Qed.

Lemma rbind_assoc {A B C} (r : result A) (f : A → result B)
    (g : B → result C) :
  rbind (rbind r f) g = rbind r (λ a, rbind (f a) g).
Proof. by destruct r. Qed.

(** The loop of [_elements] decodes the recognized elements, in order, and
    nothing else. *)
Lemma walk_decode_all (els : list node) (acc : list (handle * dobj)) :
  walk els acc =
  (ds ←r decode_all (filter (λ el, recognized (ntag el) = true) els);
   Ok ((acc ++ ds)%list)).
Proof.
  revert acc. induction els as [|el els IH]; intros acc; simpl.
  - by rewrite app_nil_r.
  - rewrite filter_cons. fold (recognized (ntag el)).
    case_decide as E.
    + rewrite E. simpl.
      destruct (_el_to_data el) as [d|e]; simpl; [|done].
      rewrite IH.
      destruct (decode_all _) as [ds|e]; simpl; [|done].
      by rewrite <- app_assoc.
    + apply not_true_is_false in E. rewrite E. apply IH.
Qed.

Lemma _elements_walks (self : SVG) (w : world) :
  cache_truth (elements self) = false →
  _elements self w =
  match decode_all (shape_elements (svg_root self) (forest w)) with
  | Ok els => (Ok els, {| svg_root := svg_root self; elements := Some els |})
  | Raise e => (Raise e, self)
  end.
Proof.
  intros Hc. unfold _elements. rewrite Hc, walk_decode_all.
  unfold shape_elements. by destruct (decode_all _).
Qed.

Lemma decode_all_handles (els : list node) (ds : list (handle * dobj)) :
  decode_all els = Ok ds →
  ds.*1 = nid <$> els ∧ Forall2 (λ el d, _el_to_data el = Ok d) els (ds.*2).
Proof.
  revert ds. induction els as [|el els IH]; intros ds; simpl.
  - intros [= <-]. split; [done|constructor].
  - destruct (_el_to_data el) as [d|e] eqn:E; simpl; [|done].
    destruct (decode_all els) as [r|e]; simpl; [|done].
    intros [= <-]. destruct (IH r eq_refl) as [H1 H2].
    split; csimpl; [by rewrite H1|by constructor].
Qed.

(** *** Encoding: [_data_to_el] *)


Lemma emitted_keys (items : list (string * value)) (k : string) :
  k ∈ (emitted items).*1 → k ∈ field_attr <$> items.*1.
Proof.
  induction items as [|[n v] items IH]; simpl; [done|].
  unfold emitted in *. simpl.
  destruct (suppressed n v); simpl; [right; auto|].
  destruct (attrib_value v); simpl; [|right; auto].
  rewrite elem_of_cons. intros [->|?]; [left|right; auto].
Qed.

Lemma dict_get_emitted (items : list (string * value)) n v :
  NoDup (field_attr <$> items.*1) → (n, v) ∈ items →
  dict_get (field_attr n) (emitted items)
  = if suppressed n v then None else attrib_value v.
Proof.
  induction items as [|[n0 v0] items IH]; simpl; [by intros _ ?%elem_of_nil|].
  intros [Hn0 Hnd]%NoDup_cons Hin.
  assert (Hrest : dict_get (field_attr n0) (emitted items) = None).
  { apply dict_get_None. intros Hk. by apply Hn0, emitted_keys. }
  apply elem_of_cons in Hin as [[= <- <-]|Hin].
  - unfold emitted in *. simpl.
    destruct (suppressed n v); simpl; [done|].
    destruct (attrib_value v); simpl; [by rewrite decide_True|done].
  - assert (field_attr n0 ≠ field_attr n).
    { intros Heq. apply Hn0. rewrite Heq.
      apply list_elem_of_fmap. exists n. split; [done|].
      apply list_elem_of_fmap. by exists (n, v). }
    rewrite <- (IH Hnd Hin). unfold emitted. simpl.
    destruct (suppressed n0 v0); simpl; [done|].
    destruct (attrib_value v0); simpl; [by rewrite decide_False|done].
Qed.

Lemma write_fields_emitted (items : list (string * value))
    (attrib : list (string * string)) :
  NoDup (field_attr <$> items.*1) →
  (∀ n, n ∈ items.*1 → dict_get (field_attr n) attrib = None) →
  write_fields items attrib
  = if storable items then Ok (attrib ++ emitted items)%list
    else Raise TypeError.
Proof.
  revert attrib. induction items as [|[n v] items IH]; intros attrib; simpl.
  - intros _ _. by rewrite app_nil_r.
  - intros [Hn Hnd]%NoDup_cons Hfresh.
    unfold emitted, storable. simpl. fold (suppressed n v).
    destruct (suppressed n v); simpl.
    + apply IH; [done|]. intros m Hm. apply Hfresh. by right.
    + destruct (attrib_value v) as [s|]; simpl; [|done].
      rewrite IH; [|done|].
      * rewrite dict_set_fresh by (apply Hfresh; left).
        unfold emitted. by rewrite <- app_assoc.
      * intros m Hm. rewrite dict_get_set_ne; [apply Hfresh; by right|].
        intros Heq. apply Hn. rewrite Heq. by apply list_elem_of_fmap_2.
Qed.

Lemma asdict_names (o : dobj) : (asdict o).*1 = f_name <$> fields (dtype o).
Proof.
  unfold asdict. rewrite <- list_fmap_compose. done.
Qed.

Lemma field_attrs_NoDup (c : shape_class) :
  NoDup (field_attr <$> (f_name <$> fields c)).
Proof.
  destruct c; apply (bool_decide_unpack _); vm_compute; exact I.
Qed.

Lemma field_names_NoDup (c : shape_class) : NoDup (f_name <$> fields c).
Proof. eapply NoDup_fmap_1, field_attrs_NoDup. Qed.

Lemma _data_to_el_emitted (o : dobj) (w : world) :
  _data_to_el o w
  = (if storable (asdict o)
     then Ok (Node (next w) (class_tag (dtype o)) (emitted (asdict o)) [])
     else Raise TypeError,
     {| forest := forest w; next := S (next w) |}).
Proof.
  unfold _data_to_el.
  assert (dict_get (dtype o) _CLASS_ELEMENTS = Some (class_tag (dtype o)))
    as -> by (by destruct (dtype o)).
  rewrite write_fields_emitted; [by destruct (storable _)| |done].
  rewrite asdict_names. apply field_attrs_NoDup.
Qed.

Lemma asdict_elem (o : dobj) (f : field) :
  f ∈ fields (dtype o) → (f_name f, dget o (f_name f)) ∈ asdict o.
Proof.
  intros Hf. unfold asdict. apply list_elem_of_fmap. by exists f.
Qed.

Lemma _data_to_el_Ok (o : dobj) (w w' : world) (el : node) :
  _data_to_el o w = (Ok el, w') →
  storable (asdict o) = true
  ∧ el = Node (next w) (class_tag (dtype o)) (emitted (asdict o)) []
  ∧ w' = {| forest := forest w; next := S (next w) |}.
Proof.
  rewrite _data_to_el_emitted.
  destruct (storable (asdict o)); [|done]. by intros [= <- <-].
Qed.

Lemma dict_get_emitted_field (o : dobj) (f : field) :
  f ∈ fields (dtype o) →
  dict_get (field_attr (f_name f)) (emitted (asdict o))
  = if suppressed (f_name f) (dget o (f_name f)) then None
    else attrib_value (dget o (f_name f)).
Proof.
  intros Hf. apply dict_get_emitted; [|by apply asdict_elem].
  rewrite asdict_names. apply field_attrs_NoDup.
Qed.



(** *** Decoding: [_el_to_data] *)

Lemma read_args_get attrib (fs : list field) (acc args : list (string * value)) :
  read_args attrib fs acc = Ok args →
  NoDup (f_name <$> fs) →
  (∀ f, f ∈ fs →
     match dict_get (field_attr (f_name f)) attrib with
     | Some s => ∃ v, convert (f_type f) s = Ok v
                      ∧ dict_get (f_name f) args = Some v
     | None => dict_get (f_name f) args = dict_get (f_name f) acc
     end)
  ∧ (∀ n, n ∉ f_name <$> fs → dict_get n args = dict_get n acc).
Proof.
  revert acc. induction fs as [|f0 fs IH]; intros acc; simpl.
  - intros [= <-] _. split; [by intros f ?%elem_of_nil|done].
  - intros Hr [Hn0 Hnd]%NoDup_cons.
    destruct (dict_get (field_attr (f_name f0)) attrib) as [s0|] eqn:E0.
    + destruct (convert (f_type f0) s0) as [v0|e] eqn:Ec; simpl in Hr; [|done].
      destruct (IH _ Hr Hnd) as [IH1 IH2]. split.
      * intros f [->|Hf]%elem_of_cons.
        -- rewrite E0. exists v0. split; [done|].
           rewrite IH2 by done. apply dict_get_set_eq.
        -- specialize (IH1 f Hf).
           destruct (dict_get (field_attr (f_name f)) attrib); [done|].
           rewrite IH1. apply dict_get_set_ne.
           intros Heq. apply Hn0. rewrite Heq. by apply list_elem_of_fmap_2.
      * intros n [Hne Hn]%not_elem_of_cons.
        rewrite IH2 by done. by apply dict_get_set_ne.
    + destruct (IH _ Hr Hnd) as [IH1 IH2]. split.
      * intros f [->|Hf]%elem_of_cons; [|by apply IH1].
        rewrite E0. by apply IH2.
      * intros n [Hne Hn]%not_elem_of_cons. by apply IH2.
Qed.

Lemma head_filter_name (fs : list field) (f : field) :
  NoDup (f_name <$> fs) → f ∈ fs →
  head (filter (λ g, f_name g = f_name f) fs) = Some f.
Proof.
  induction fs as [|g fs IH]; simpl; [by intros _ ?%elem_of_nil|].
  intros [Hg Hnd]%NoDup_cons Hin. rewrite filter_cons.
  apply elem_of_cons in Hin as [->|Hin].
  - by rewrite decide_True.
  - rewrite decide_False; [auto|].
    intros Heq. apply Hg. rewrite Heq. by apply list_elem_of_fmap_2.
Qed.

(** What a decoded object holds: for each declared field, the attribute of
    that field's external name converted to the field's type, or the
    default when the element has no such attribute. *)
Lemma _el_to_data_fields (el : node) (o : dobj) :
  _el_to_data el = Ok o →
  dict_get (ntag el) _ELEMENT_CLASSES = Some (dtype o)
  ∧ ∀ f, f ∈ fields (dtype o) →
      match dict_get (field_attr (f_name f)) (nattrib el) with
      | Some s => convert (f_type f) s = Ok (dget o (f_name f))
      | None => dget o (f_name f) = f_default f
      end.
Proof.
  unfold _el_to_data.
  destruct (dict_get (ntag el) _ELEMENT_CLASSES) as [c|]; [|done].
  destruct (read_args _ _ _) as [args|e] eqn:Er; simpl; [|done].
  intros [= <-]. split; [done|]. simpl.
  destruct (read_args_get _ _ _ _ Er (field_names_NoDup c)) as [H1 _].
  intros f Hf. specialize (H1 f Hf).
  destruct (dict_get (field_attr (f_name f)) (nattrib el)) as [s|].
  - destruct H1 as (v & Hv & ->). done.
  - rewrite H1. simpl.
    by rewrite (head_filter_name _ _ (field_names_NoDup c) Hf).
Qed.

Lemma _el_to_data_construct (el : node) (c : shape_class)
    (args : list (string * value)) :
  dict_get (ntag el) _ELEMENT_CLASSES = Some c →
  read_args (nattrib el) (fields c) [] = Ok args →
  _el_to_data el = Ok (construct c args).
Proof. unfold _el_to_data. by intros -> ->. Qed.

Lemma convert_str (f : field) (s : string) (v : value) :
  f_type f = TStr → convert (f_type f) s = Ok v → v = VStr s.
Proof. intros ->. simpl. by intros [= <-]. Qed.

Lemma presentation_in_fields (c : shape_class) (f : field) :
  f ∈ presentation_fields → f ∈ fields c.
Proof. intros Hf. unfold fields. apply elem_of_app. by left. Qed.

Lemma presentation_str (f : field) :
  f ∈ presentation_fields → f_type f = TStr ∧ f_default f = VStr EmptyString.
Proof.
  unfold presentation_fields.
  rewrite !elem_of_cons, elem_of_nil. intros [->|[->|[->|[->|[]]]]]; done.
Qed.

(** *** [as_path] and the cache *)

Lemma as_path_is_path (o : dobj) : is_path (as_path outline o).
Proof. unfold is_path, as_path. by destruct (dtype o) eqn:E. Qed.

Lemma as_path_of_path (o : dobj) : is_path o → as_path outline o = o.
Proof. unfold is_path, as_path. by intros ->. Qed.

Lemma as_path_idempotent (o : dobj) :
  as_path outline (as_path outline o) = as_path outline o.
Proof. apply as_path_of_path, as_path_is_path. Qed.

Lemma as_path_presentation (o : dobj) (f : field) :
  f ∈ presentation_fields →
  dget (as_path outline o) (f_name f) = dget o (f_name f).
Proof.
  unfold presentation_fields.
  rewrite !elem_of_cons, elem_of_nil.
  unfold as_path.
  intros [->|[->|[->|[->|[]]]]]; by destruct (dtype o).
Qed.

Lemma convert_from_app (done todo : list (handle * dobj)) :
  convert_from outline (length todo) (length done) (done ++ todo)
  = (done ++ (to_path outline <$> todo))%list.
Proof.
  revert done. induction todo as [|[el shape] todo IH]; intros done; simpl.
  - done.
  - rewrite lookup_app_r, Nat.sub_diag by done. simpl.
    rewrite insert_app_r_alt, Nat.sub_diag by done. simpl.
    replace (S (length done)) with (length (done ++ [(el, shape)])%list)
      by (rewrite length_app; simpl; lia).
    specialize (IH (done ++ [(el, as_path outline shape)])%list).
    rewrite length_app in *. simpl in *.
    rewrite <- !app_assoc in IH. simpl in IH. done.
Qed.

Lemma convert_from_fmap (els : list (handle * dobj)) :
  convert_from outline (length els) 0 els = to_path outline <$> els.
Proof. apply (convert_from_app [] els). Qed.

Lemma to_path_idempotent (els : list (handle * dobj)) :
  to_path outline <$> (to_path outline <$> els) = to_path outline <$> els.
Proof.
  rewrite <- list_fmap_compose. apply list_fmap_ext.
  intros i [el shape] _. unfold to_path. simpl.
  by rewrite as_path_idempotent.
Qed.

Lemma shapes_to_paths_inplace_spec (self : SVG) (w : world) :
  shapes_to_paths_inplace outline self w
  = match _elements self w with
    | (Ok els, self') =>
        (Ok (), {| svg_root := svg_root self;
                   elements := Some (to_path outline <$> els) |})
    | (Raise e, _) => (Raise e, self)
    end.
Proof.
  unfold shapes_to_paths_inplace, _elements.
  destruct (cache_truth (elements self)).
  - by rewrite convert_from_fmap.
  - destruct (walk _ _); [|done]. by rewrite convert_from_fmap.
Qed.

(** C5. Decoding an element whose tag is not one of the seven shape tags
    (bare or in the SVG namespace) raises ValueError and returns no value;
    the walk behind [shapes()] leaves such elements out without an error:
    it decodes the recognized elements, in document order, and only
    those. *)
Theorem unrecognized_tag_raises_walk_skips :
  (∀ tag, recognized tag = true ↔
          ∃ k, k ∈ shape_tags ∧ (tag = k ∨ tag = namespaced k))
  ∧ (∀ el, recognized (ntag el) = false →
           _el_to_data el
           = Raise (ValueError ("Bad tag <" +:+ ntag el +:+ ">")))
  ∧ (∀ self w, cache_truth (elements self) = false →
       shapes self w =
       match decode_all (shape_elements (svg_root self) (forest w)) with
       | Ok els =>
           (Ok (els.*2),
            {| svg_root := svg_root self; elements := Some els |})
       | Raise e => (Raise e, self)
       end)
  ∧ (∀ root F el, el ∈ shape_elements root F ↔
                  el ∈ iter_root root F ∧ recognized (ntag el) = true)
  ∧ (∀ els ds, decode_all els = Ok ds →
       ds.*1 = nid <$> els
       ∧ Forall2 (λ el d, _el_to_data el = Ok d) els (ds.*2)).
Proof.
  split; [apply recognized_shape_tags|].
  split; [apply bad_tag_raises|].
  split; [|split].
  - intros self w Hc. unfold shapes. rewrite _elements_walks by done.
    by destruct (decode_all _).
  - intros root F el. unfold shape_elements.
    rewrite list_elem_of_filter. tauto.
  - apply decode_all_handles.
Qed.


Lemma storable_strings (items : list (string * value)) :
  (∀ kv, kv ∈ items → ∃ s, kv.2 = VStr s) → storable items = true.
Proof.
  intros Hs. unfold storable. apply Is_true_true, forallb_True, Forall_forall.
  intros kv Hkv. destruct (Hs kv Hkv) as [s Hv]. rewrite Hv. simpl.
  apply orb_True. right. done.
Qed.

Lemma decoded_presentation_str (el : node) (o : dobj) (f : field) :
  _el_to_data el = Ok o → f ∈ presentation_fields →
  dget o (f_name f)
  = VStr (default EmptyString
            (dict_get (field_attr (f_name f)) (nattrib el))).
Proof.
  intros Hd Hf. destruct (_el_to_data_fields _ _ Hd) as [_ Hfs].
  specialize (Hfs f (presentation_in_fields _ _ Hf)).
  destruct (presentation_str f Hf) as [Hty Hdf].
  destruct (dict_get (field_attr (f_name f)) (nattrib el)) as [s|]; simpl.
  - by apply (convert_str f s).
  - by rewrite Hfs.
Qed.

Lemma decoded_path_storable (el : node) (o : dobj) :
  _el_to_data el = Ok o → storable (asdict (as_path outline o)) = true.
Proof.
  intros Hd. apply storable_strings. intros [n v] Hin.
  unfold asdict in Hin. apply list_elem_of_fmap in Hin as (f & [= -> ->] & Hf).
  rewrite as_path_is_path in Hf. simpl.
  unfold fields in Hf. apply elem_of_app in Hf as [Hf|Hf].
  - rewrite as_path_presentation by done.
    rewrite (decoded_presentation_str el) by done. eauto.
  - simpl in Hf. apply list_elem_of_singleton in Hf as ->. simpl.
    unfold as_path. destruct (dtype o) eqn:E; simpl; eauto.
    destruct (_el_to_data_fields _ _ Hd) as [_ Hfs].
    specialize (Hfs (str_field "d")). rewrite E in Hfs.
    specialize (Hfs ltac:(unfold fields; simpl; solve_elem)). simpl in Hfs.
    destruct (dict_get _ _); [injection Hfs as <-|rewrite Hfs]; eauto.
Qed.




(** C8 (amended). Converting a decoded shape to a path and writing it out
    always yields a path element, on which every attribute of the source
    element that is one of the declared presentation fields (clip-path,
    opacity, fill, stroke) has the same value, except a blank clip-path,
    which is left out; the element has no attribute outside the declared
    fields of a path, so any other attribute of the source is dropped. *)
Theorem declared_presentation_fields_carried
    (el : node) (o : dobj) (w : world) :
  _el_to_data el = Ok o →
  ∃ el',
    _data_to_el (as_path outline o) w
    = (Ok el', {| forest := forest w; next := S (next w) |})
    ∧ ntag el' = class_tag SVGPath
    ∧ (∀ f s, f ∈ presentation_fields →
         dict_get (field_attr (f_name f)) (nattrib el) = Some s →
         dict_get (field_attr (f_name f)) (nattrib el')
         = if decide (f_name f = "clip_path" ∧ s = EmptyString) then None
           else Some s)
    ∧ (∀ k, k ∈ (nattrib el').*1 →
            k ∈ field_attr <$> (f_name <$> fields SVGPath)).
Proof.
  intros Hd. rewrite _data_to_el_emitted, (decoded_path_storable el) by done.
  eexists. split; [done|]. cbn [nattrib ntag]. rewrite as_path_is_path.
  split; [done|]. split.
  - intros f s Hf Hs.
    rewrite dict_get_emitted_field by apply presentation_in_fields, Hf.
    rewrite as_path_presentation by done.
    rewrite (decoded_presentation_str el) by done. rewrite Hs. simpl.
    unfold suppressed, _OMIT_FIELD_IF_BLANK. simpl.
    destruct (decide (f_name f = "clip_path")) as [->|Hn].
    + rewrite bool_decide_eq_true_2 by solve_elem. simpl.
      destruct (decide (s = EmptyString)) as [->|Hne].
      * by rewrite decide_True.
      * apply String.eqb_neq in Hne as Hb. rewrite Hb. simpl.
        rewrite decide_False; [done|]. by intros [_ ?].
    + rewrite bool_decide_eq_false_2 by (by intros ?%list_elem_of_singleton).
      simpl. rewrite decide_False; [done|]. by intros [? _].
  - intros k Hk. apply emitted_keys in Hk.
    by rewrite asdict_names, as_path_is_path in Hk.
Qed.


Lemma cache_truth_fmap (f : handle * dobj → handle * dobj)
    (c : list (handle * dobj)) :
  cache_truth (Some (f <$> c)) = cache_truth (Some c).
Proof. by destruct c. Qed.

Lemma shapes_to_paths_inplace_cached (root : handle)
    (els : list (handle * dobj)) (w : world) :
  cache_truth (Some els) = true →
  let self1 := {| svg_root := root;
                  elements := Some (to_path outline <$> els) |} in
  shapes_to_paths_inplace outline self1 w = (Ok (), self1).
Proof.
  intros Hels self1. rewrite shapes_to_paths_inplace_spec.
  unfold _elements, self1. cbn [elements svg_root].
  rewrite cache_truth_fmap, Hels. cbn [default from_option id].
  by rewrite to_path_idempotent.
Qed.

Lemma shapes_to_paths_inplace_twice (self self1 : SVG) (w : world) :
  shapes_to_paths_inplace outline self w = (Ok (), self1) →
  shapes_to_paths_inplace outline self1 w = (Ok (), self1).
Proof.
  rewrite (shapes_to_paths_inplace_spec self).
  destruct (cache_truth (elements self)) eqn:Hc.
  - unfold _elements. rewrite Hc.
    destruct (elements self) as [els|] eqn:He; [|done].
    cbn [default from_option id].
    intros [= <-]. by apply shapes_to_paths_inplace_cached.
  - rewrite _elements_walks by done.
    destruct (decode_all _) as [els|e] eqn:Hw; [|done].
    intros [= <-].
    destruct (cache_truth (Some els)) eqn:Hels;
      [by apply shapes_to_paths_inplace_cached|].
    destruct els; [|done]. cbn [fmap list_fmap].
    rewrite shapes_to_paths_inplace_spec, _elements_walks by done.
    cbn [svg_root]. by rewrite Hw.
Qed.

(** C3. [shape_to_path] converts nothing: it looks up [_etree], a name
    that [svg.py] never binds, so every call raises NameError before the
    element is decoded, and no shape, a Path or any other, comes back as a
    path.  The sibling path through the cache does convert: an in-place
    [shapes_to_paths] that returns leaves a normalizer which a second one
    leaves as it is. *)
Theorem shape_to_path_raises_name_error :
  (∀ shape, shape_to_path outline shape = Raise (NameError "_etree"))
  ∧ (∀ self w r self1 w1,
       shapes_to_paths outline true self w = (Ok r, self1, w1) →
       r = self1
       ∧ shapes_to_paths outline true self1 w1 = (Ok self1, self1, w1)).
Proof.
  split; [done|].
  intros self w r self1 w1. unfold shapes_to_paths. simpl.
  destruct (shapes_to_paths_inplace outline self w) as [[[]|e] self'] eqn:E;
    [|done].
  intros [= <- <- <-]. split; [done|].
  by rewrite (shapes_to_paths_inplace_twice _ _ _ E).
Qed.

(** C10. In a document without recognized shape elements the cache is
    never taken as there: the walk leaves an empty list, an empty list
    counts as no cache, so each later call walks the tree of the store it
    is given again, and [tostring] writes the tree as it is, also after
    an in-place [shapes_to_paths]. *)
Theorem empty_cache_counts_as_absent (self : SVG) (w : world) :
  cache_truth (elements self) = false →
  shape_elements (svg_root self) (forest w) = [] →
  let self' := {| svg_root := svg_root self; elements := Some [] |} in
  shapes self w = (Ok [], self')
  ∧ cache_truth (elements self') = false
  ∧ (∀ w2, shapes self' w2 =
       match decode_all (shape_elements (svg_root self) (forest w2)) with
       | Ok els =>
           (Ok (els.*2),
            {| svg_root := svg_root self; elements := Some els |})
       | Raise e => (Raise e, self')
       end)
  ∧ shapes_to_paths outline true self w = (Ok self', self', w)
  ∧ tostring self' w = (Ok (etree_tostring (svg_root self) (forest w)), w).
Proof.
  intros Hc Hno self'. split; [|split; [done|split; [|split; [|done]]]].
  - unfold shapes. rewrite _elements_walks, Hno by done. done.
  - intros w2. unfold shapes. rewrite _elements_walks by done. simpl.
    by destruct (decode_all _).
  - unfold shapes_to_paths. simpl. rewrite shapes_to_paths_inplace_spec.
    rewrite _elements_walks, Hno by done. done.
Qed.

Lemma apply_clip_paths_inplace_noop (self : SVG) (w : world) :
  apply_clip_paths true self w = (Ok self, self, w).
Proof. done. Qed.


(** *** [tostring] and the cache *)

Lemma build_swaps_spec (els : list (handle * dobj)) (w : world) :
  ∃ swaps w',
    build_swaps els w
    = (if encodable els then Ok swaps else Raise TypeError, w')
    ∧ forest w' = forest w
    ∧ (next w ≤ next w')%nat
    ∧ (encodable els = true → swaps.*1 = els.*1)
    ∧ Forall (λ sw : handle * node,
                nchildren sw.2 = [] ∧ (next w ≤ nid sw.2)%nat) swaps.
Proof.
  revert w. induction els as [|[o s] els IH]; intros w.
  { exists [], w. by repeat split. }
  cbn [build_swaps encodable forallb snd]. rewrite _data_to_el_emitted.
  destruct (storable (asdict s)); cbn [andb].
  - destruct (IH {| forest := forest w; next := S (next w) |})
      as (swaps & w' & -> & HF & Hn & Hh & Hsw).
    cbn [forest next] in *. fold (encodable els).
    eexists (_ :: swaps), w'.
    split; [by destruct (encodable els)|].
    split; [done|]. split; [lia|].
    split; [intros He; by rewrite !fmap_cons, Hh|].
    constructor; [done|].
    eapply Forall_impl; [exact Hsw|]. intros sw [? ?]. split; [done|lia].
  - exists [], {| forest := forest w; next := S (next w) |}.
    cbn [forest next]. repeat split; try done; lia.
Qed.

Lemma _apply_swaps_keeps_parentless (swaps : list (handle * node))
    (F : list node) (o : handle) :
  o ∉ child_ids F →
  Forall (λ sw : handle * node, nchildren sw.2 = [] ∧ nid sw.2 ≠ o) swaps →
  o ∉ child_ids (_apply_swaps swaps F).2.
Proof.
  revert F. induction swaps as [|[old new] swaps IH]; intros F Ho Hsw; [done|].
  apply Forall_cons in Hsw as [[Hleaf Hne] Hsw]. cbn [_apply_swaps].
  destruct (getparent old F) as [p|]; [|done].
  apply IH; [|done].
  intros [?|?]%child_ids_replace; done.
Qed.

Lemma _apply_swaps_detaches_first (o : handle) (n : node)
    (swaps : list (handle * node)) (F : list node) :
  NoDup (ids F) →
  Forall (λ sw : handle * node, nchildren sw.2 = [] ∧ nid sw.2 ≠ o)
    ((o, n) :: swaps) →
  o ∉ child_ids (_apply_swaps ((o, n) :: swaps) F).2.
Proof.
  intros Hnd [[Hleaf Hne] Hsw]%Forall_cons. cbn [_apply_swaps].
  destruct (getparent o F) as [p|] eqn:Hp.
  - apply _apply_swaps_keeps_parentless; [|done].
    by apply replaced_has_no_parent.
  - by apply getparent_None.
Qed.

Lemma _apply_swaps_parentless (o : handle) (n : node)
    (swaps : list (handle * node)) (F : list node) :
  o ∉ child_ids F →
  _apply_swaps ((o, n) :: swaps) F = (Raise AttributeError, F).
Proof. intros Ho%getparent_None. cbn [_apply_swaps]. by rewrite Ho. Qed.

(** After one [tostring] over a populated cache the first cached handle
    names an element without parent, and the next [tostring] fails on
    it; when the store refuses a value, both calls fail on that. *)
Lemma tostring_twice (self : SVG) (w : world) (o : handle)
    (s : dobj) (rest : list (handle * dobj)) :
  NoDup (ids (forest w)) →
  elements self = Some ((o, s) :: rest) →
  (o < next w)%nat →
  (tostring self (tostring self w).2).1
  = Raise (if encodable ((o, s) :: rest) then AttributeError else TypeError)
  ∧ (encodable ((o, s) :: rest) = true →
     o ∉ child_ids (forest (tostring self w).2)).
Proof.
  intros Hnd Hels Ho. unfold tostring. rewrite Hels.
  cbn [cache_truth default from_option id].
  set (els := (o, s) :: rest).
  destruct (build_swaps_spec els w) as (swaps & w1 & -> & HF & Hn & Hh & Hsw).
  destruct (encodable els) eqn:Henc.
  - specialize (Hh eq_refl).
    destruct swaps as [|[o' n] swaps]; [done|].
    injection Hh as -> Hh.
    assert (Hpar : o ∉ child_ids (_apply_swaps ((o, n) :: swaps) (forest w1)).2).
    { rewrite HF. apply _apply_swaps_detaches_first; [done|].
      eapply Forall_impl; [exact Hsw|]. intros sw [? ?]. split; [done|lia]. }
    destruct (_apply_swaps ((o, n) :: swaps) (forest w1)) as [r F1].
    cbn [snd] in Hpar.
    set (w2 := {| forest := F1; next := next w1 |}).
    assert (Hsnd :
      (match build_swaps els w2 with
       | (Ok swaps, w1) =>
           match _apply_swaps swaps (forest w1) with
           | (Ok _, F) =>
               (Ok (etree_tostring (svg_root self) F),
                {| forest := F; next := next w1 |})
           | (Raise e, F) => (Raise e, {| forest := F; next := next w1 |})
           end
       | (Raise e, w1) => (Raise e, w1)
       end).1 = Raise AttributeError).
    { destruct (build_swaps_spec els w2)
        as (swaps2 & w3 & -> & HF2 & _ & Hh2 & _).
      rewrite Henc. specialize (Hh2 Henc).
      destruct swaps2 as [|[o' n2] swaps2]; [done|].
      injection Hh2 as -> _.
      rewrite HF2. cbn [forest w2].
      by rewrite _apply_swaps_parentless. }
    by destruct r.
  - cbn [snd]. split; [|done].
    destruct (build_swaps_spec els w1) as (swaps2 & w3 & -> & _).
    by rewrite Henc.
Qed.

Lemma iter_root_nodes (root : handle) (F : list node) (el : node) :
  el ∈ iter_root root F → el ∈ nodes F.
Proof.
  unfold iter_root. destruct (find_node root F) as [t|] eqn:Ht;
    [|by intros ?%elem_of_nil].
  apply find_node_Some in Ht as [Ht _]. by apply iter_nodes.
Qed.

Lemma shape_elements_valid (root : handle) (w : world) (el : node) :
  wf w → el ∈ shape_elements root (forest w) → (nid el < next w)%nat.
Proof.
  intros Hwf [_ Hel%iter_root_nodes]%list_elem_of_filter.
  apply (wf_ids_lt w); [done|]. by apply list_elem_of_fmap_2.
Qed.


(** *** [shapes_to_paths(inplace=False)] *)

Lemma _el_to_data_relabel (off : nat) (el : node) :
  _el_to_data (relabel off el) = _el_to_data el.
Proof.
  unfold _el_to_data. by rewrite ntag_relabel, nattrib_relabel.
Qed.

Lemma decode_all_relabel (off : nat) (els : list node) :
  decode_all (relabel off <$> els)
  = match decode_all els with
    | Ok ds => Ok (shift off <$> ds)
    | Raise e => Raise e
    end.
Proof.
  induction els as [|el els IH]; [done|].
  rewrite fmap_cons. cbn [decode_all].
  rewrite _el_to_data_relabel, IH, nid_relabel.
  destruct (_el_to_data el); [|done]. by destruct (decode_all els).
Qed.

Lemma filter_recognized_relabel (off : nat) (els : list node) :
  filter (λ el, recognized (ntag el) = true) (relabel off <$> els)
  = relabel off <$> filter (λ el, recognized (ntag el) = true) els.
Proof.
  induction els as [|el els IH]; [done|].
  rewrite fmap_cons, !filter_cons, ntag_relabel, IH. by case_decide.
Qed.

Lemma build_swaps_new_swaps (els : list (handle * dobj)) (w : world) :
  ∃ w',
    build_swaps els w
    = (if encodable els then Ok (new_swaps (next w) els)
       else Raise TypeError, w')
    ∧ forest w' = forest w.
Proof.
  revert w. induction els as [|[o s] els IH]; intros w.
  { by exists w. }
  cbn [build_swaps encodable forallb snd new_swaps].
  rewrite _data_to_el_emitted.
  destruct (storable (asdict s)); cbn [andb]; [|by eexists].
  destruct (IH {| forest := forest w; next := S (next w) |})
    as (w' & -> & HF).
  cbn [forest next] in *. fold (encodable els).
  exists w'. by destruct (encodable els).
Qed.

Lemma new_swaps_rename (ρ : handle → handle) (k k' : handle)
    (els : list (handle * dobj)) :
  (∀ i, ρ (k + i) = k' + i) →
  (λ sw : handle * node, (sw.1, rename ρ sw.2)) <$> new_swaps k els
  = new_swaps k' els.
Proof.
  revert k k'. induction els as [|[o s] els IH]; intros k k' Hρ; [done|].
  cbn [new_swaps]. rewrite fmap_cons. cbn [fst snd rename map].
  specialize (Hρ 0) as H0. rewrite !Nat.add_0_r in H0. rewrite H0.
  f_equal. apply IH. intros i. specialize (Hρ (S i)).
  by rewrite !Nat.add_succ_r in Hρ.
Qed.

Lemma new_swaps_handles (k : handle) (els : list (handle * dobj)) :
  (new_swaps k els).*1 = els.*1.
Proof.
  revert k. induction els as [|[o s] els IH]; intros k; [done|].
  cbn [new_swaps]. by rewrite !fmap_cons, IH.
Qed.

(** A tree of fresh identities added to the store, and identities handed
    out from further up, do not change what [tostring] returns. *)
Lemma tostring_frame (self : SVG) (w : world) (c : node) :
  Forall (λ i, i < next w) (ids (forest w)) →
  Forall (λ e : handle * dobj, e.1 < next w) (default [] (elements self)) →
  svg_root self < next w →
  Forall (λ i, next w ≤ i) (ids [c]) →
  (tostring self {| forest := forest w ++ [c]; next := next w + next w |}).1
  = (tostring self w).1.
Proof.
  intros Hlt Hcache Hroot Hc. rewrite Forall_forall in Hc.
  assert (Hout : ∀ h, h < next w → h ∉ ids [c]).
  { intros h Hh Hin%Hc. lia. }
  unfold tostring. destruct (cache_truth (elements self)); cycle 1.
  { cbn [fst forest].
    rewrite <- (app_nil_r (forest w)) at 2.
    f_equal. by apply etree_tostring_insert, Hout. }
  set (els := default [] (elements self)) in *.
  set (k := next w) in *.
  destruct (build_swaps_new_swaps els w) as (w1 & -> & HF1).
  destruct (build_swaps_new_swaps els
              {| forest := forest w ++ [c]; next := k + k |})
    as (w2 & -> & HF2).
  cbn [forest next] in HF2.
  destruct (encodable els); [|done].
  rewrite HF1, HF2. fold k.
  assert (Hfix : Forall (λ sw : handle * node, past k sw.1 = sw.1)
                   (new_swaps k els)).
  { apply Forall_forall. intros sw Hsw.
    assert (sw.1 ∈ els.*1) as (e & -> & He)%list_elem_of_fmap
      by (rewrite <- (new_swaps_handles k); by apply list_elem_of_fmap_2).
    rewrite Forall_forall in Hcache. specialize (Hcache e He).
    unfold past. by rewrite decide_True. }
  pose proof (_apply_swaps_rename (past k) (new_swaps k els) (forest w) Hfix)
    as Hren.
  rewrite (new_swaps_rename (past k) k (k + k)) in Hren.
  2:{ intros i. unfold past. rewrite decide_False by lia. lia. }
  rewrite rename_forest_fixed in Hren.
  2:{ eapply Forall_impl; [exact Hlt|]. intros i Hi. cbn beta in Hi.
      unfold past. by rewrite decide_True. }
  destruct (_apply_swaps_insert (new_swaps (k + k) els) c (forest w) [])
    as (r & G1 & G2 & HA & HB).
  { apply Forall_forall. intros sw Hsw. apply Hout.
    assert (sw.1 ∈ els.*1) as (e & -> & He)%list_elem_of_fmap
      by (rewrite <- (new_swaps_handles (k + k)); by apply list_elem_of_fmap_2).
    rewrite Forall_forall in Hcache. by apply Hcache. }
  rewrite app_nil_r in HA. cbn [next]. rewrite HB. rewrite HA in Hren.
  destruct (_apply_swaps (new_swaps k els) (forest w)) as [r' G].
  cbn [fst snd] in Hren. injection Hren as -> HG.
  destruct r' as [[]|e]; [|done]. cbn [fst]. f_equal.
  rewrite etree_tostring_insert by (by apply Hout).
  rewrite HG. apply etree_tostring_rename; [apply _|].
  unfold past. by rewrite decide_True.
Qed.

(** C2. [shapes_to_paths(inplace=False)] leaves the source as it was:
    [self] and every tree of the store are unchanged (the store only gains
    one tree), so the source tree serializes to the same bytes before and
    after, and [tostring()] on the source gives the same result in the
    store after the call as in the store before it.  What is returned is a new normalizer over a copy of the
    source tree under fresh identities, whose cache pairs every recognized
    element of the copy with the path of its decoded shape; the call
    raises exactly when decoding one of these elements does. *)
Theorem copy_leaves_source_unchanged (self : SVG) (w : world) (t : node) :
  wf w →
  find_node (svg_root self) (forest w) = Some t →
  let copy := relabel (next w) t in
  let w' := {| forest := forest w ++ [copy]; next := next w + next w |} in
  let out := shapes_to_paths outline false self w in
  out.2 = w' ∧ out.1.2 = self
  ∧ find_node (svg_root self) (forest w') = Some t
  ∧ etree_tostring (svg_root self) (forest w')
    = etree_tostring (svg_root self) (forest w)
  ∧ (Forall (λ e : handle * dobj, e.1 < next w)
        (default [] (elements self)) →
     (tostring self w').1 = (tostring self w).1)
  ∧ strip copy = strip t
  ∧ serialize copy = serialize t
  ∧ Forall (λ i, next w ≤ i)%nat (ids [copy])
  ∧ wf w'
  ∧ out.1.1
    = match decode_all (filter (λ el, recognized (ntag el) = true) (iter t))
      with
      | Ok els =>
          Ok {| svg_root := nid copy;
                elements :=
                  Some (to_path outline <$> (shift (next w) <$> els)) |}
      | Raise e => Raise e
      end
  ∧ ∀ svg, out.1.1 = Ok svg →
      svg_root svg ≠ svg_root self
      ∧ Forall (λ e, is_path e.2) (default [] (elements svg)).
Proof.
  intros Hwf Ht copy w' out.
  pose proof (find_node_Some _ _ _ Ht) as [Htn Hroot].
  assert (Hfind : find_node (svg_root self) (forest w') = Some t)
    by (by apply find_node_app_l).
  assert (Hcopy : find_node (next w + svg_root self) (forest w') = Some copy).
  { unfold w', copy. cbn [forest]. rewrite find_node_deepcopy by done.
    by rewrite decide_True. }
  assert (Hout : out =
    (match decode_all (filter (λ el, recognized (ntag el) = true) (iter t))
     with
     | Ok els =>
         Ok {| svg_root := nid copy;
               elements :=
                 Some (to_path outline <$> (shift (next w) <$> els)) |}
     | Raise e => Raise e
     end, self, w')).
  { unfold out, shapes_to_paths, deepcopy. cbn [negb]. rewrite Ht.
    fold copy. fold w'. rewrite shapes_to_paths_inplace_spec.
    rewrite _elements_walks by done. unfold shape_elements, iter_root.
    cbn [SVG_init svg_root]. rewrite Hcopy. unfold copy at 1.
    rewrite iter_relabel, filter_recognized_relabel, decode_all_relabel.
    unfold copy. rewrite nid_relabel, Hroot.
    by destruct (decode_all _). }
  rewrite Hout. cbn [fst snd].
  split; [done|]. split; [done|]. split; [done|].
  split; [unfold etree_tostring; by rewrite Hfind, Ht|].
  assert (Hfresh : Forall (λ i, next w ≤ i) (ids [copy])).
  { unfold copy. rewrite ids_relabel. apply Forall_fmap, Forall_forall.
    intros i _. simpl. lia. }
  assert (Hlive : svg_root self < next w).
  { apply (wf_ids_lt w); [done|]. rewrite <- Hroot.
    by apply list_elem_of_fmap_2. }
  split.
  { intros Hcache. apply tostring_frame; try done. by destruct Hwf. }
  split; [apply strip_relabel|]. split; [apply serialize_relabel|].
  split; [done|].
  split; [by apply (wf_deepcopy w (svg_root self))|].
  split; [done|].
  intros svg. destruct (decode_all _) as [els|e]; [|done].
  intros [= <-]. cbn [svg_root elements default from_option id]. split.
  - unfold copy. rewrite nid_relabel, Hroot. lia.
  - apply Forall_fmap, Forall_forall. intros e _. apply as_path_is_path.
Qed.

End properties.

(** * Worked examples *)

Section examples.
Local Existing Instance literal_float.

Ltac by_computation := apply (bool_decide_unpack _); vm_compute; exact I.

(** C1. [apply_clip_paths] is a stub: on a document whose shape refers to
    a clip path with two children the in-place call returns [self] and
    changes nothing; the clip container, its wrapper and the reference are
    all still there when the document is written out. *)
Example clip_paths_are_left_in_place :
  apply_clip_paths true (loaded clip_doc).1 (loaded clip_doc).2
  = (Ok (loaded clip_doc).1, (loaded clip_doc).1, (loaded clip_doc).2)
  ∧ tostring (loaded clip_doc).1 (loaded clip_doc).2
    = (Ok "<svg><defs><clipPath id='c'><path d='M0 0L1 0L1 1Z'></path><path d='M1 1L2 1L2 2Z'></path></clipPath></defs><path d='M0 0L2 0L2 2Z' clip-path='url(#c)'></path></svg>",
       (loaded clip_doc).2).
Proof. split; vm_compute; reflexivity. Qed.

(** C4. When the root element of the document is itself a shape and the
    cache has been populated, [tostring()] raises AttributeError instead
    of writing the document: the root has no parent to replace it in. *)
Example tostring_raises_on_root_shape :
  let svg1 := (shapes (loaded root_shape_doc).1 (loaded root_shape_doc).2).2
  in
  cache_truth (elements svg1) = true
  ∧ (tostring svg1 (loaded root_shape_doc).2).1 = Raise AttributeError.
Proof. split; vm_compute; reflexivity. Qed.

Lemma stroked_path_decodes : _el_to_data stroked_path = Ok stroked_path_data.
Proof. apply _el_to_data_construct; vm_compute; reflexivity. Qed.

Lemma circle_doc_cache :
  _elements (SVG_init 0) (loaded circle_doc).2
  = (Ok circle_cache, circle_svg_cached).
Proof.
  rewrite _elements_walks by reflexivity. cbn [SVG_init svg_root].
  assert (shape_elements 0 (forest (loaded circle_doc).2)
          = [Node 1 "circle" [("r", "2"); ("fill", "red")] [];
             Node 3 "path" [("d", "M0 0L1 1"); ("clip-path", "url(#c)")] []])
    as -> by (vm_compute; reflexivity).
  cbn [decode_all].
  rewrite (_el_to_data_construct _ SVGCircle
             [("fill", VStr "red"); ("r", VFloat ("2" : @float literal_float))])
    by (vm_compute; reflexivity).
  rewrite (_el_to_data_construct _ SVGPath
             [("clip_path", VStr "url(#c)"); ("d", VStr "M0 0L1 1")])
    by (vm_compute; reflexivity).
  reflexivity.
Qed.

(** The claim C8 as stated fails: [stroke-width], an attribute of the
    source that is no part of the geometry, is not on the encoded path. *)
Lemma undeclared_attribute_is_dropped :
  _el_to_data stroked_path = Ok stroked_path_data
  ∧ _data_to_el (as_path example_outline stroked_path_data) empty_world
    = (Ok encoded_stroked_path, {| forest := []; next := 1 |})
  ∧ dict_get "stroke-width" (nattrib stroked_path) = Some "2"
  ∧ ("stroke-width"
     ∉ field_attr <$> (f_name <$> geometry_fields SVGPath))
  ∧ dict_get "stroke-width" (nattrib encoded_stroked_path) = None.
Proof.
  split; [apply stroked_path_decodes|].
  split; [vm_compute; reflexivity|]. split; [reflexivity|].
  split; [|reflexivity].
  intros Hin. vm_compute in Hin.
  inversion Hin as [|?? ? Hin']; subst. inversion Hin'.
Qed.

Lemma copy_leaves_source_unchanged_witness :
  let svg := (loaded circle_doc).1 in
  let w := (loaded circle_doc).2 in
  wf w ∧ find_node (svg_root svg) (forest w) = Some (label 0 circle_doc)
  ∧ (shapes_to_paths example_outline false svg w).1.2 = svg.
Proof.
  intros svg w.
  assert (Hwf : wf w) by (split; by_computation).
  assert (Hf : find_node (svg_root svg) (forest w) = Some (label 0 circle_doc))
    by (vm_compute; reflexivity).
  split; [exact Hwf|]. split; [exact Hf|].
  exact (proj1 (proj2
    (copy_leaves_source_unchanged example_outline svg w _ Hwf Hf))).
Defined.

Lemma unrecognized_tag_raises_walk_skips_witness :
  recognized (ntag (Node 0 "g" [] [])) = false
  ∧ _el_to_data (Node 0 "g" [] []) = Raise (ValueError "Bad tag <g>").
Proof.
  assert (Hr : recognized (ntag (Node 0 "g" [] [])) = false)
    by (vm_compute; reflexivity).
  split; [exact Hr|].
  exact (proj1 (proj2 unrecognized_tag_raises_walk_skips) _ Hr).
Defined.

Lemma declared_presentation_fields_carried_witness :
  _el_to_data stroked_path = Ok stroked_path_data
  ∧ ∃ el', _data_to_el (as_path example_outline stroked_path_data)
             empty_world
           = (Ok el', {| forest := []; next := 1 |})
           ∧ dict_get "fill" (nattrib el') = Some "red".
Proof.
  split; [exact stroked_path_decodes|].
  destruct (declared_presentation_fields_carried example_outline
              stroked_path _ empty_world stroked_path_decodes)
    as (el' & Hel & _ & Hcarried & _).
  exists el'. split; [exact Hel|].
  apply (Hcarried (str_field "fill") "red").
  - unfold presentation_fields. solve_elem.
  - reflexivity.
Defined.

Lemma empty_cache_counts_as_absent_witness :
  let svg := (loaded group_doc).1 in
  let w := (loaded group_doc).2 in
  cache_truth (elements svg) = false
  ∧ shape_elements (svg_root svg) (forest w) = []
  ∧ tostring {| svg_root := svg_root svg; elements := Some [] |} w
    = (Ok (etree_tostring (svg_root svg) (forest w)), w).
Proof.
  intros svg w.
  assert (Hc : cache_truth (elements svg) = false) by reflexivity.
  assert (Hn : shape_elements (svg_root svg) (forest w) = [])
    by (vm_compute; reflexivity).
  split; [exact Hc|]. split; [exact Hn|].
  exact (proj2 (proj2 (proj2 (proj2
    (empty_cache_counts_as_absent example_outline svg w Hc Hn))))).
Defined.





End examples.

(** * Further properties of the element tree: a run of swaps *)

Section swap_facts.
Implicit Types (n m t c : node) (F : list node) (h p o : handle)
  (ss : list (handle * node)).

Lemma NoDup_fmap_elem_inj {A B} (f : A → B) (l : list A) (x y : A) :
  NoDup (f <$> l) → x ∈ l → y ∈ l → f x = f y → x = y.
Proof.
  induction l as [|a l IH]; [by intros _ ?%elem_of_nil|].
  rewrite fmap_cons. intros [Ha Hnd]%NoDup_cons.
  intros [->|Hx]%elem_of_cons [->|Hy]%elem_of_cons Heq; try done.
  - exfalso. apply Ha. rewrite Heq. by apply list_elem_of_fmap_2.
  - exfalso. apply Ha. rewrite <- Heq. by apply list_elem_of_fmap_2.
  - by apply IH.
Qed.

Lemma nid_inj_nodes F x y :
  NoDup (ids F) → x ∈ nodes F → y ∈ nodes F → nid x = nid y → x = y.
Proof. apply NoDup_fmap_elem_inj. Qed.

Lemma find_node_unique F m :
  NoDup (ids F) → m ∈ nodes F → find_node (nid m) F = Some m.
Proof.
  intros Hnd Hm. destruct (find_node (nid m) F) as [x|] eqn:Hf.
  - apply find_node_Some in Hf as [Hx Hn]. f_equal.
    by apply (nid_inj_nodes F).
  - apply find_node_None in Hf. exfalso. apply Hf.
    by apply list_elem_of_fmap_2.
Qed.

Lemma child_ids_ids F h : h ∈ child_ids F → h ∈ ids F.
Proof. rewrite (ids_kids F), elem_of_app. auto. Qed.

Lemma nid_swap_all ss t : nid (swap_all ss t) = nid t.
Proof. by destruct t. Qed.

Lemma nchildren_swap_all ss t :
  nchildren (swap_all ss t)
  = map (λ c, match dict_get (nid c) ss with
              | Some new => new
              | None => swap_all ss c
              end) (nchildren t).
Proof. by destruct t. Qed.

Lemma swap_all_nil t : swap_all [] t = t.
Proof.
  induction t as [i tg a cs IH] using node_forall_ind.
  cbn [swap_all dict_get]. f_equal.
  rewrite <- (map_id cs) at 2. apply map_ext_Forall, IH.
Qed.

Lemma iter_swap_all ss t m' :
  m' ∈ iter (swap_all ss t) →
  (∃ m, m ∈ iter t ∧ m' = swap_all ss m)
  ∨ (∃ k new, (k, new) ∈ ss ∧ m' ∈ iter new).
Proof.
  revert m'. induction t as [i tg a cs IH] using node_forall_ind.
  intros m'. rewrite iter_unfold, nchildren_swap_all. cbn [nchildren].
  intros [->|Hm']%elem_of_cons.
  { left. eexists. split; [apply iter_self|done]. }
  apply list_elem_of_bind in Hm' as (c' & Hm' & Hc').
  apply list_elem_of_fmap in Hc' as (c & -> & Hc).
  rewrite Forall_forall in IH.
  destruct (dict_get (nid c) ss) as [new|] eqn:Hg.
  - right. exists (nid c), new. split; [by apply dict_get_Some_elem|done].
  - destruct (IH c Hc m' Hm') as [(m & Hm & ->)|?]; [left|by right].
    exists m. split; [|done]. rewrite iter_unfold. right.
    apply list_elem_of_bind. eauto.
Qed.

Lemma nodes_swap_all ss (L : list node) m' :
  m' ∈ nodes (swap_all ss <$> L) →
  (∃ m, m ∈ nodes L ∧ m' = swap_all ss m)
  ∨ (∃ k new, (k, new) ∈ ss ∧ m' ∈ iter new).
Proof.
  intros (t' & Hm' & Ht')%list_elem_of_bind.
  apply list_elem_of_fmap in Ht' as (t & -> & Ht).
  apply iter_swap_all in Hm' as [(m & Hm & ->)|?]; [left|by right].
  exists m. split; [|done]. apply list_elem_of_bind. eauto.
Qed.

Lemma nodes_detached ss F m : m ∈ nodes (detached ss F) → m ∈ nodes F.
Proof.
  intros (t & Hm & Ht)%list_elem_of_bind. unfold detached in Ht.
  apply list_elem_of_omap in Ht as (sw & _ & Hf).
  apply find_node_Some in Hf as [Ht _]. by apply (iter_nodes F t).
Qed.

Lemma nodes_with_detached ss F m :
  m ∈ nodes (F ++ detached ss F) → m ∈ nodes F.
Proof.
  rewrite nodes_app, elem_of_app. intros [?|?]; [done|].
  by apply (nodes_detached ss).
Qed.

(** Every element of the store is still there after the swaps, with its
    own children swapped: in its old tree, or in the tree of a detached
    element. *)
Lemma swap_all_visible ss F t m :
  NoDup (ids F) → t ∈ nodes F → m ∈ iter t →
  swap_all ss m ∈ iter (swap_all ss t)
  ∨ swap_all ss m ∈ nodes (swap_all ss <$> detached ss F).
Proof.
  intros Hnd. revert m. induction t as [i tg a cs IH] using node_forall_ind.
  intros m Ht. rewrite iter_unfold. cbn [nchildren].
  intros [->|Hm]%elem_of_cons; [left; apply iter_self|].
  apply list_elem_of_bind in Hm as (c & Hm & Hc).
  rewrite Forall_forall in IH.
  assert (Hcn : c ∈ nodes F).
  { apply (iter_nodes F (Node i tg a cs)); [done|].
    rewrite iter_unfold. right. apply list_elem_of_bind.
    exists c. split; [apply iter_self|done]. }
  destruct (IH c Hc m Hcn Hm) as [Hin|?]; [|by right].
  destruct (dict_get (nid c) ss) as [new|] eqn:Hg.
  - right. apply list_elem_of_bind. exists (swap_all ss c). split; [done|].
    apply list_elem_of_fmap_2. unfold detached.
    apply list_elem_of_omap. exists (nid c, new).
    split; [by apply dict_get_Some_elem|]. by apply find_node_unique.
  - left. rewrite iter_unfold, nchildren_swap_all. right.
    apply list_elem_of_bind. exists (swap_all ss c). split; [done|].
    cbn [nchildren]. apply list_elem_of_fmap. exists c. by rewrite Hg.
Qed.

Lemma swap_all_in_store ss F m :
  NoDup (ids F) → m ∈ nodes F →
  swap_all ss m ∈ nodes (swap_all ss <$> (F ++ detached ss F)).
Proof.
  intros Hnd Hm. rewrite fmap_app, nodes_app, elem_of_app.
  pose proof Hm as (t & Hmt & Ht)%list_elem_of_bind.
  destruct (swap_all_visible ss F t m Hnd (nodes_root _ _ Ht) Hmt) as [Hin|?];
    [left|by right].
  apply list_elem_of_bind. exists (swap_all ss t). split; [done|].
  by apply list_elem_of_fmap_2.
Qed.

Lemma fresh_leaves_elem F ss k new :
  fresh_leaves F ss → (k, new) ∈ ss → nchildren new = [] ∧ nid new ∉ ids F.
Proof.
  unfold fresh_leaves. rewrite Forall_forall. intros Hfl Hin.
  apply (Hfl (k, new) Hin).
Qed.

Lemma leaf_iter new m : nchildren new = [] → m ∈ iter new → m = new.
Proof.
  intros Hleaf. rewrite iter_unfold, Hleaf. by intros ?%list_elem_of_singleton.
Qed.

(** Dereferencing after the swaps. *)
Lemma find_node_swap_all ss F m :
  NoDup (ids F) → fresh_leaves F ss → m ∈ nodes F →
  find_node (nid m) (swap_all ss <$> (F ++ detached ss F))
  = Some (swap_all ss m).
Proof.
  intros Hnd Hfl Hm.
  destruct (find_node (nid m) _) as [x|] eqn:Hf.
  - apply find_node_Some in Hf as [Hx Hn]. f_equal.
    apply nodes_swap_all in Hx as [(m2 & Hm2 & ->)|(k & new & Hin & Hx)].
    + rewrite nid_swap_all in Hn. f_equal.
      apply (nid_inj_nodes F); [done| |done|done].
      by apply (nodes_with_detached ss).
    + destruct (fresh_leaves_elem F ss k new Hfl Hin) as [Hleaf Hfresh].
      apply (leaf_iter new x Hleaf) in Hx as ->.
      exfalso. apply Hfresh. rewrite Hn. by apply list_elem_of_fmap_2.
  - apply find_node_None in Hf. exfalso. apply Hf.
    rewrite <- (nid_swap_all ss m).
    by apply list_elem_of_fmap_2, swap_all_in_store.
Qed.

(** A parent after the swaps is a parent before them. *)
Lemma getparent_swap_all ss F o p :
  NoDup (ids F) → fresh_leaves F ss → o ∈ ids F →
  getparent o (swap_all ss <$> (F ++ detached ss F)) = Some p →
  ∃ m c, m ∈ nodes F ∧ nid m = p ∧ c ∈ nchildren m ∧ nid c = o
         ∧ dict_get o ss = None.
Proof.
  intros Hnd Hfl Ho (m' & c' & Hm' & Hp & Hc' & Hco)%getparent_Some.
  apply nodes_swap_all in Hm' as [(m & Hm & ->)|(k & new & Hin & Hm')].
  - rewrite nid_swap_all in Hp. rewrite nchildren_swap_all in Hc'.
    apply list_elem_of_fmap in Hc' as (c & -> & Hc).
    apply (nodes_with_detached ss) in Hm.
    destruct (dict_get (nid c) ss) as [new|] eqn:Hg.
    + apply dict_get_Some_elem in Hg.
      destruct (fresh_leaves_elem F ss _ new Hfl Hg) as [_ Hfresh].
      exfalso. apply Hfresh. by rewrite Hco.
    + rewrite nid_swap_all in Hco. exists m, c.
      repeat split; try done. by rewrite <- Hco.
  - destruct (fresh_leaves_elem F ss k new Hfl Hin) as [Hleaf _].
    apply (leaf_iter new m' Hleaf) in Hm' as ->.
    rewrite Hleaf in Hc'. by apply elem_of_nil in Hc'.
Qed.

Lemma getparent_swap_all_is_Some ss F o :
  NoDup (ids F) → o ∈ child_ids F → dict_get o ss = None →
  is_Some (getparent o (swap_all ss <$> (F ++ detached ss F))).
Proof.
  intros Hnd (m & c & Hm & Hc & Hco)%elem_of_kids Hg.
  destruct (getparent o _) as [p|] eqn:Hp; [eauto|].
  apply getparent_None in Hp. exfalso. apply Hp.
  apply elem_of_kids. exists (swap_all ss m), (swap_all ss c).
  split; [by apply swap_all_in_store|].
  split; [|by rewrite nid_swap_all].
  rewrite nchildren_swap_all. apply list_elem_of_fmap.
  exists c. by rewrite Hco, Hg.
Qed.

(** One more swap. *)
Lemma replace_at_swap_all ss F o n p t :
  NoDup (ids F) → fresh_leaves F ss → o ∈ ids F →
  getparent o (swap_all ss <$> (F ++ detached ss F)) = Some p →
  t ∈ nodes F →
  replace_at p o n (swap_all ss t) = swap_all (ss ++ [(o, n)]) t.
Proof.
  intros Hnd Hfl Ho Hp.
  destruct (getparent_swap_all ss F o p Hnd Hfl Ho Hp)
    as (m0 & c0 & Hm0 & Hpm & Hc0 & Hco0 & Hg0).
  induction t as [i tg a cs IH] using node_forall_ind. intros Ht.
  cbn [swap_all replace_at]. f_equal. rewrite map_map.
  apply map_ext_Forall. rewrite Forall_forall in IH. apply Forall_forall.
  intros c Hc. cbn beta.
  assert (Hcn : c ∈ nodes F).
  { apply (iter_nodes F (Node i tg a cs)); [done|].
    rewrite iter_unfold. right. apply list_elem_of_bind.
    exists c. split; [apply iter_self|done]. }
  rewrite dict_get_app.
  destruct (dict_get (nid c) ss) as [new|] eqn:Hg.
  - apply dict_get_Some_elem in Hg.
    destruct (fresh_leaves_elem F ss _ new Hfl Hg) as [Hleaf Hfresh].
    rewrite bool_decide_eq_false_2 by (intros [_ Hn]; apply Hfresh; by rewrite Hn).
    destruct new as [j tg' a' cs']. cbn [nchildren] in Hleaf. by subst cs'.
  - rewrite nid_swap_all. cbn [dict_get].
    destruct (decide (o = nid c)) as [Hoc|Hoc].
    + rewrite bool_decide_eq_true_2; [done|]. split; [|done].
      rewrite <- Hpm.
      apply (kids_unique_parent (nodes F) (Node i tg a cs) m0 c c0);
        try done; [by apply NoDup_child_ids|congruence].
    + rewrite bool_decide_eq_false_2 by (by intros [_ ?]). by apply IH.
Qed.

Lemma swap_all_snoc_absent ss o n t :
  o ∉ kids (iter t) → swap_all (ss ++ [(o, n)]) t = swap_all ss t.
Proof.
  induction t as [i tg a cs IH] using node_forall_ind. intros Ho.
  cbn [swap_all]. f_equal. apply map_ext_Forall.
  rewrite Forall_forall in IH. apply Forall_forall. intros c Hc.
  assert (Hne : o ≠ nid c).
  { intros ->. apply Ho, elem_of_kids. exists (Node i tg a cs), c.
    split; [apply iter_self|done]. }
  rewrite dict_get_app. cbn [dict_get]. rewrite decide_False by done.
  destruct (dict_get (nid c) ss); [done|]. apply IH; [done|].
  intros (m & c' & Hm & Hc' & Hco)%elem_of_kids. apply Ho, elem_of_kids.
  exists m, c'. split; [|done]. rewrite iter_unfold. right.
  apply list_elem_of_bind. eauto.
Qed.

Lemma detached_snoc ss o n F t :
  find_node o F = Some t →
  detached (ss ++ [(o, n)]) F = detached ss F ++ [t].
Proof.
  intros Ht. unfold detached. rewrite omap_app. cbn. by rewrite Ht.
Qed.

Lemma replace_swap_all ss F o n p :
  NoDup (ids F) → fresh_leaves F ss → o ∈ ids F →
  getparent o (swap_all ss <$> (F ++ detached ss F)) = Some p →
  replace p o n (swap_all ss <$> (F ++ detached ss F))
  = swap_all (ss ++ [(o, n)])
      <$> (F ++ detached (ss ++ [(o, n)]) F).
Proof.
  intros Hnd Hfl Ho Hp.
  apply list_elem_of_fmap in Ho as Ho'. destruct Ho' as (t & -> & Ht).
  rewrite (detached_snoc ss (nid t) n F t) by (by apply find_node_unique).
  unfold replace. rewrite find_node_swap_all by done. cbn [option_list].
  rewrite (app_assoc F), (fmap_app _ (F ++ detached ss F)).
  f_equal.
  - rewrite <- list_fmap_compose. apply list_fmap_ext. intros ? x Hx.
    cbn. apply (replace_at_swap_all ss F); try done.
    apply (nodes_with_detached ss), nodes_root.
    by apply list_elem_of_lookup_2 in Hx.
  - cbn. f_equal. symmetry. apply swap_all_snoc_absent.
    by apply (NoDup_not_below_itself F).
Qed.

(** A run of swaps over distinct elements that all have a parent goes
    through, and leaves every tree of the store with the named elements
    swapped and the elements taken out as trees of their own. *)
Lemma _apply_swaps_from ss todo F :
  NoDup (ids F) → fresh_leaves F (ss ++ todo) →
  NoDup (ss ++ todo).*1 →
  Forall (λ sw : handle * node, sw.1 ∈ child_ids F) todo →
  _apply_swaps todo (swap_all ss <$> (F ++ detached ss F))
  = (Ok (),
     swap_all (ss ++ todo) <$> (F ++ detached (ss ++ todo) F)).
Proof.
  intros Hnd. revert ss. induction todo as [|[o n] todo IH];
    intros ss Hfl Hdis Hch.
  { by rewrite app_nil_r. }
  apply Forall_cons in Hch as [Ho Hch]. cbn [fst] in Ho.
  assert (Hfl' : fresh_leaves F ss).
  { unfold fresh_leaves in *. by apply Forall_app in Hfl as [? _]. }
  assert (Hg : dict_get o ss = None).
  { apply dict_get_None. rewrite fmap_app, fmap_cons in Hdis.
    apply NoDup_app in Hdis as (_ & Hdis & _). intros Hin.
    apply (Hdis o Hin). left. }
  cbn [_apply_swaps].
  destruct (getparent_swap_all_is_Some ss F o Hnd Ho Hg) as [p Hp].
  rewrite Hp.
  rewrite (replace_swap_all ss F o n p Hnd Hfl' (child_ids_ids _ _ Ho) Hp).
  replace (ss ++ (o, n) :: todo) with ((ss ++ [(o, n)]) ++ todo)
    by (by rewrite <- app_assoc).
  apply IH; rewrite <- ?app_assoc; done.
Qed.

Lemma dict_get_is_Some {V} (k : handle) (d : list (handle * V)) :
  k ∈ d.*1 → is_Some (dict_get k d).
Proof.
  induction d as [|[k' v] d IH]; [by intros ?%elem_of_nil|].
  cbn [dict_get]. rewrite fmap_cons. case_decide; [eauto|].
  intros [?|?]%elem_of_cons; [done|auto].
Qed.

(** An element that the swaps name has no parent afterwards. *)
Lemma swapped_out_no_parent ss F (L : list node) o :
  fresh_leaves F ss → o ∈ ids F → o ∈ ss.*1 →
  o ∉ child_ids (swap_all ss <$> L).
Proof.
  intros Hfl Ho Hin (m' & c' & Hm' & Hc' & Hco)%elem_of_kids.
  apply nodes_swap_all in Hm' as [(m & Hm & ->)|(k & new & Hk & Hm')].
  - rewrite nchildren_swap_all in Hc'.
    apply list_elem_of_fmap in Hc' as (c & -> & Hc).
    destruct (dict_get (nid c) ss) as [new|] eqn:Hg.
    + apply dict_get_Some_elem in Hg.
      destruct (fresh_leaves_elem F ss _ new Hfl Hg) as [_ Hfresh].
      apply Hfresh. by rewrite Hco.
    + rewrite nid_swap_all in Hco. rewrite Hco in Hg.
      destruct (dict_get_is_Some o ss Hin) as [? ?]. congruence.
  - destruct (fresh_leaves_elem F ss k new Hfl Hk) as [Hleaf _].
    apply (leaf_iter new m' Hleaf) in Hm' as ->.
    rewrite Hleaf in Hc'. by apply elem_of_nil in Hc'.
Qed.

Lemma not_child_not_below (G : list node) t o :
  t ∈ nodes G → o ∉ child_ids G → o ≠ nid t → o ∉ ids [t].
Proof.
  intros Ht Ho Hne. unfold ids. rewrite nodes_singleton, (ids_kids_tree t).
  intros [?|Hin]%elem_of_cons; [done|]. apply Ho.
  apply elem_of_kids in Hin as (m & c & Hm & Hc & Hco).
  apply elem_of_kids. exists m, c. split; [|done]. by apply (iter_nodes G t).
Qed.

(** How a run of swaps fails. *)
Lemma _apply_swaps_Raise (swaps : list (handle * node)) F e :
  (_apply_swaps swaps F).1 = Raise e → e = AttributeError.
Proof.
  revert F. induction swaps as [|[o n] swaps IH]; intros F; [done|].
  cbn [_apply_swaps]. destruct (getparent o F); [apply IH|].
  by intros [= <-].
Qed.

Lemma _apply_swaps_parentless_elem (swaps : list (handle * node)) F o :
  o ∈ swaps.*1 → o ∉ child_ids F →
  Forall (λ sw : handle * node, nchildren sw.2 = [] ∧ nid sw.2 ≠ o) swaps →
  (_apply_swaps swaps F).1 = Raise AttributeError.
Proof.
  revert F. induction swaps as [|[o' n] swaps IH]; intros F Hin Ho Hsw.
  { by apply elem_of_nil in Hin. }
  apply Forall_cons in Hsw as [[Hleaf Hne] Hsw]. cbn [_apply_swaps].
  destruct (getparent o' F) as [p|] eqn:Hp; [|done].
  rewrite fmap_cons in Hin. apply elem_of_cons in Hin as [->|Hin].
  { apply getparent_None in Ho. cbn in Ho, Hp. congruence. }
  apply IH; [done| |done].
  intros [?|?]%child_ids_replace; done.
Qed.

Lemma _apply_swaps_swap_all F (swaps : list (handle * node)) :
  NoDup (ids F) → fresh_leaves F swaps → NoDup swaps.*1 →
  Forall (λ sw : handle * node, sw.1 ∈ child_ids F) swaps →
  _apply_swaps swaps F
  = (Ok (), swap_all swaps <$> (F ++ detached swaps F)).
Proof.
  intros Hnd Hfl Hdis Hch.
  pose proof (_apply_swaps_from [] swaps F Hnd Hfl Hdis Hch) as Hrun.
  change (detached [] F) with (@nil node) in Hrun.
  change ([] ++ swaps) with swaps in Hrun. rewrite app_nil_r in Hrun.
  assert (swap_all [] <$> F = F) as Hid.
  { rewrite <- (list_fmap_id F) at 2. apply list_fmap_ext.
    intros ? t _. apply swap_all_nil. }
  by rewrite Hid in Hrun.
Qed.


End swap_facts.

(** * Further properties of svg.py *)

Section further_properties.
Context `{PyFloat}.
Variable outline : shape_class → (string → value) → string.

(** ** Decoding: which elements decode *)

Lemma convert_Raise (ty : ftype) (s : string) (e : exn) :
  convert ty s = Raise e →
  ty = TFloat ∧ float_of_string s = None ∧ ∃ msg, e = ValueError msg.
Proof.
  destruct ty; simpl; [done|].
  destruct (float_of_string s); [done|]. intros [= <-]. eauto.
Qed.

Lemma convert_Ok_iff (ty : ftype) (s : string) :
  (∃ v, convert ty s = Ok v) ↔ (ty = TFloat → is_Some (float_of_string s)).
Proof.
  destruct ty; simpl.
  - split; [done|eauto].
  - destruct (float_of_string s) as [x|]; split; eauto.
    + intros [v [=]].
    + intros Hs. by destruct (Hs eq_refl).
Qed.

Lemma read_args_Raise attrib (fs : list field)
    (acc : list (string * value)) (e : exn) :
  read_args attrib fs acc = Raise e →
  ∃ f s, f ∈ fs ∧ dict_get (field_attr (f_name f)) attrib = Some s
         ∧ convert (f_type f) s = Raise e.
Proof.
  revert acc. induction fs as [|f fs IH]; intros acc; simpl; [done|].
  destruct (dict_get (field_attr (f_name f)) attrib) as [s|] eqn:Es.
  - destruct (convert (f_type f) s) as [v|e'] eqn:Ec; simpl.
    + intros (g & t & Hg & Ht & Hc)%IH. exists g, t. split; [by right|done].
    + intros [= <-]. exists f, s. split; [left|done].
  - intros (g & t & Hg & Ht & Hc)%IH. exists g, t. split; [by right|done].
Qed.

Lemma read_args_Ok attrib (fs : list field) (acc args : list (string * value)) :
  read_args attrib fs acc = Ok args →
  ∀ f s, f ∈ fs → dict_get (field_attr (f_name f)) attrib = Some s →
         ∃ v, convert (f_type f) s = Ok v.
Proof.
  revert acc. induction fs as [|f0 fs IH]; intros acc; simpl.
  { by intros _ f s ?%elem_of_nil. }
  intros Hr f s [->|Hf]%elem_of_cons Hs.
  - rewrite Hs in Hr. destruct (convert (f_type f0) s); [eauto|done].
  - destruct (dict_get (field_attr (f_name f0)) attrib) as [s0|];
      [|by apply (IH _ Hr f s)].
    destruct (convert (f_type f0) s0); [|done]. by apply (IH _ Hr f s).
Qed.

(** X1. An element decodes exactly when its tag is recognized and every
    attribute it has for a numeric field of its class converts to a
    float; a failure is always a ValueError. *)
Theorem decoding_fails_only_on_tag_or_number (el : node) :
  ((∃ o, _el_to_data el = Ok o) ↔
   ∃ c, dict_get (ntag el) _ELEMENT_CLASSES = Some c ∧ floats_convert c el)
  ∧ ∀ e, _el_to_data el = Raise e → ∃ msg, e = ValueError msg.
Proof.
  unfold _el_to_data.
  destruct (dict_get (ntag el) _ELEMENT_CLASSES) as [c|]; cycle 1.
  { split; [|intros e [= <-]; eauto].
    split; [by intros [o ?]|by intros (c & ? & _)]. }
  destruct (read_args (nattrib el) (fields c) []) as [args|e] eqn:Er; simpl.
  - split; [|done]. split; [|eauto].
    intros _. exists c. split; [done|].
    intros f s Hf Hty Hs.
    destruct (read_args_Ok _ _ _ _ Er f s Hf Hs) as [v Hv].
    by apply (convert_Ok_iff (f_type f) s); eauto.
  - apply read_args_Raise in Er as (f & s & Hf & Hs & Hc).
    apply convert_Raise in Hc as (Hty & Hnone & Hmsg).
    split; [|by intros e' [= <-]].
    split; [by intros [o ?]|].
    intros (c' & [= <-] & Hconv).
    destruct (Hconv f s Hf Hty Hs) as [x Hx]. congruence.
Qed.

(** ** Encoding and decoding again *)

Lemma class_tag_decodes (c : shape_class) :
  dict_get (class_tag c) _ELEMENT_CLASSES = Some c
  ∧ dict_get c _CLASS_ELEMENTS = Some (class_tag c).
Proof. by destruct c. Qed.

Lemma str_field_default (c : shape_class) (f : field) :
  f ∈ fields c → f_type f = TStr → f_default f = VStr EmptyString.
Proof.
  unfold fields, presentation_fields.
  destruct c; cbn [geometry_fields fmap list_fmap app];
    rewrite ?elem_of_cons, elem_of_nil; intros Hf;
    repeat (destruct Hf as [->|Hf]; [done|]); done.
Qed.

(** X2. Round trip through the tree: an object of a class whose fields
    are all strings (path, polygon, polyline) is written out as an
    element that decodes to an object of the same class with the same
    value in every declared field; a blank [clip_path], left out of the
    element, comes back as the blank default. *)
Theorem encode_then_decode (o : dobj) (w : world) :
  string_object o →
  ∃ el o',
    _data_to_el o w = (Ok el, {| forest := forest w; next := S (next w) |})
    ∧ _el_to_data el = Ok o'
    ∧ dtype o' = dtype o
    ∧ ∀ f, f ∈ fields (dtype o) → dget o' (f_name f) = dget o (f_name f).
Proof.
  intros Hstr. rewrite _data_to_el_emitted.
  assert (storable (asdict o) = true) as ->.
  { apply storable_strings. intros [n v] Hin. unfold asdict in Hin.
    apply list_elem_of_fmap in Hin as (f & [= -> ->] & Hf).
    by destruct (Hstr f Hf) as [_ ?]. }
  set (el := Node (next w) (class_tag (dtype o)) (emitted (asdict o)) []).
  assert (Hdec : ∃ o', _el_to_data el = Ok o').
  { unfold _el_to_data. cbn [ntag el].
    rewrite (proj1 (class_tag_decodes (dtype o))).
    destruct (read_args (nattrib el) (fields (dtype o)) []) as [args|e] eqn:Er;
      [cbn; eauto|].
    apply read_args_Raise in Er as (f & s & Hf & _ & Hc).
    apply convert_Raise in Hc as (Hty & _).
    destruct (Hstr f Hf) as [Hty' _]. congruence. }
  destruct Hdec as [o' Ho']. exists el, o'. split; [done|]. split; [done|].
  destruct (_el_to_data_fields el o' Ho') as [Hc Hfields].
  cbn [ntag el] in Hc. rewrite (proj1 (class_tag_decodes _)) in Hc.
  injection Hc as Hc. split; [done|].
  intros f Hf. rewrite <- Hc in Hfields. specialize (Hfields f Hf).
  cbn [nattrib el] in Hfields. rewrite dict_get_emitted_field in Hfields by done.
  destruct (Hstr f Hf) as [Hty [s Hs]]. rewrite Hs in *.
  destruct (suppressed (f_name f) (VStr s)) eqn:Hsup.
  - rewrite Hfields, (str_field_default _ f Hf Hty).
    unfold suppressed in Hsup. apply andb_true_iff in Hsup as [_ Hb].
    cbn in Hb.
    destruct (String.eqb_spec s EmptyString) as [Heq|Hne]; [by rewrite Heq|done].
  - cbn [attrib_value] in Hfields. rewrite Hty in Hfields.
    by injection Hfields as <-.
Qed.

(** X3. Writing a decoded shape out normalizes the tag: whether the
    element had the bare tag or the namespaced one, the element written
    from its shape has the namespaced tag, and that tag decodes to the
    same class. *)
Theorem encoding_namespaces_the_tag (el : node) (o : dobj) :
  _el_to_data el = Ok o →
  ∃ k, k ∈ shape_tags
       ∧ (ntag el = k ∨ ntag el = namespaced k)
       ∧ dict_get k _ELEMENT_CLASSES = Some (dtype o)
       ∧ dict_get (namespaced k) _ELEMENT_CLASSES = Some (dtype o)
       ∧ ∀ w el' w', _data_to_el o w = (Ok el', w') → ntag el' = namespaced k.
Proof.
  intros Hd. destruct (_el_to_data_fields el o Hd) as [Hc _].
  assert (Hk : ∃ k, k ∈ shape_tags
                    ∧ (ntag el = k ∨ ntag el = namespaced k)
                    ∧ dict_get k _ELEMENT_CLASSES = Some (dtype o)
                    ∧ class_tag (dtype o) = namespaced k).
  { revert Hc. generalize (dtype o) (ntag el). intros c tag.
    let l := eval vm_compute in _ELEMENT_CLASSES in
      change _ELEMENT_CLASSES with l.
    cbn [dict_get].
    repeat (case_decide;
      [subst tag; intros [= <-];
       first
         [ exists "circle"; by (repeat split; [unfold shape_tags; solve_elem|eauto|..])
         | exists "ellipse"; by (repeat split; [unfold shape_tags; solve_elem|eauto|..])
         | exists "line"; by (repeat split; [unfold shape_tags; solve_elem|eauto|..])
         | exists "path"; by (repeat split; [unfold shape_tags; solve_elem|eauto|..])
         | exists "polygon"; by (repeat split; [unfold shape_tags; solve_elem|eauto|..])
         | exists "polyline"; by (repeat split; [unfold shape_tags; solve_elem|eauto|..])
         | exists "rect"; by (repeat split; [unfold shape_tags; solve_elem|eauto|..]) ]
      |]).
    done. }
  destruct Hk as (k & Hin & Htag & Hbare & Hns). exists k.
  split; [done|]. split; [done|]. split; [done|]. split.
  - rewrite <- Hns. apply class_tag_decodes.
  - intros w el' w' Hel. apply _data_to_el_Ok in Hel as (_ & -> & _).
    by rewrite <- Hns.
Qed.

(** ** In-place conversion *)

Lemma _elements_result (self self0 : SVG) (w : world)
    (els : list (handle * dobj)) :
  _elements self w = (Ok els, self0) →
  svg_root self0 = svg_root self
  ∧ (cache_truth (Some els) = true → elements self0 = Some els)
  ∧ (els = [] →
     decode_all (shape_elements (svg_root self) (forest w)) = Ok []).
Proof.
  unfold _elements. destruct (cache_truth (elements self)) eqn:Hc.
  - destruct (elements self) as [[|e l]|] eqn:He; try done.
    cbn [default from_option id]. intros [= <- <-]. by rewrite He.
  - rewrite walk_decode_all. fold (shape_elements (svg_root self) (forest w)).
    destruct (decode_all _) as [ds|e]; [|done]. cbn.
    intros [= <- <-]. repeat split; try done. by intros ->.
Qed.

(** X4. [shapes_to_paths(inplace=True)] touches neither the tree nor the
    store: it returns [self], whose cache now holds, for the same elements
    in the same order, [as_path] of each shape, so that [shapes()]
    afterwards reports exactly [as_path] of what was cached before.  When
    the walk raises, the call raises the same and [self] is as before. *)
Theorem inplace_conversion_maps_the_cache (self : SVG) (w : world) :
  match _elements self w with
  | (Ok els, _) =>
      let self' := {| svg_root := svg_root self;
                      elements := Some (to_path outline <$> els) |} in
      shapes_to_paths outline true self w = (Ok self', self', w)
      ∧ (to_path outline <$> els).*1 = els.*1
      ∧ shapes self' w = (Ok (as_path outline <$> els.*2), self')
  | (Raise e, _) => shapes_to_paths outline true self w = (Raise e, self, w)
  end.
Proof.
  unfold shapes_to_paths. cbn [negb].
  rewrite shapes_to_paths_inplace_spec.
  destruct (_elements self w) as [[els|e] self0] eqn:He; [|done].
  split; [done|]. split.
  { rewrite <- list_fmap_compose. by apply list_fmap_ext. }
  destruct (_elements_result _ _ _ _ He) as (_ & _ & Hempty).
  unfold shapes, _elements. cbn [elements svg_root].
  rewrite cache_truth_fmap.
  destruct els as [|e els].
  - cbn [cache_truth]. rewrite walk_decode_all.
    fold (shape_elements (svg_root self) (forest w)).
    by rewrite (Hempty eq_refl).
  - cbn [cache_truth default from_option id].
    do 2 f_equal. rewrite <- !list_fmap_compose. by apply list_fmap_ext.
Qed.

(** ** What [tostring] writes *)

Lemma serialize_render (n : node) : serialize n = render (strip n).
Proof.
  induction n as [i tg a cs IH] using node_forall_ind.
  cbn [serialize strip render]. by rewrite map_map, (map_ext_Forall _ _ IH).
Qed.

Lemma encode_tree_nil (t : node) : encode_tree [] t = strip t.
Proof.
  induction t as [i tg a cs IH] using node_forall_ind.
  cbn [encode_tree strip dict_get]. f_equal. apply map_ext_Forall, IH.
Qed.

Lemma dict_get_new_swaps (k h : handle) (els : list (handle * dobj)) :
  strip <$> dict_get h (new_swaps k els) = encoded_xml <$> dict_get h els.
Proof.
  revert k. induction els as [|[o s] els IH]; intros k; [done|].
  cbn [new_swaps dict_get]. case_decide; [done|]. apply IH.
Qed.

Lemma strip_swap_all (k : handle) (els : list (handle * dobj)) (t : node) :
  strip (swap_all (new_swaps k els) t) = encode_tree els t.
Proof.
  induction t as [i tg a cs IH] using node_forall_ind.
  cbn [swap_all strip encode_tree]. f_equal. rewrite map_map.
  apply map_ext_Forall. eapply Forall_impl; [exact IH|].
  intros c Hc. cbn beta.
  pose proof (dict_get_new_swaps k (nid c) els) as Hg.
  destruct (dict_get (nid c) (new_swaps k els)) as [new|],
           (dict_get (nid c) els) as [shape|]; try done.
  by injection Hg.
Qed.

Lemma fresh_leaves_new_swaps (F : list node) (k : handle)
    (els : list (handle * dobj)) :
  Forall (λ i, i < k) (ids F) → fresh_leaves F (new_swaps k els).
Proof.
  rewrite Forall_forall. intros Hlt. revert k Hlt.
  induction els as [|[o s] els IH]; intros k Hlt; [constructor|].
  cbn [new_swaps]. constructor.
  - split; [done|]. cbn. intros Hin%Hlt. lia.
  - apply IH. intros i Hi%Hlt. lia.
Qed.

Lemma tostring_run (self : SVG) (w : world)
    (els : list (handle * dobj)) (t : node) :
  wf w →
  elements self = Some els →
  NoDup els.*1 →
  Forall (λ e : handle * dobj, e.1 ∈ child_ids (forest w)) els →
  encodable els = true →
  find_node (svg_root self) (forest w) = Some t →
  (tostring self w).1 = Ok (render (encode_tree els t))
  ∧ (els ≠ [] →
     forest (tostring self w).2
     = swap_all (new_swaps (next w) els)
         <$> (forest w ++ detached (new_swaps (next w) els) (forest w))).
Proof.
  intros [Hnd Hlt] Hels Hdis Hch Henc Ht. unfold tostring. rewrite Hels.
  destruct els as [|e els'].
  { cbn [cache_truth fst]. unfold etree_tostring.
    by rewrite Ht, encode_tree_nil, serialize_render. }
  set (els := e :: els') in *. cbn [cache_truth default from_option id].
  destruct (build_swaps_new_swaps els w) as (w1 & -> & HF1).
  rewrite Henc, HF1.
  rewrite _apply_swaps_swap_all; try done.
  - cbn [fst snd forest]. split; [|done]. unfold etree_tostring.
    apply find_node_Some in Ht as [Htn <-].
    rewrite find_node_swap_all;
      [|done|by apply fresh_leaves_new_swaps|done].
    by rewrite serialize_render, strip_swap_all.
  - by apply fresh_leaves_new_swaps.
  - by rewrite new_swaps_handles.
  - apply Forall_forall. intros sw Hsw.
    assert (sw.1 ∈ (new_swaps (next w) els).*1) as Hin
      by (by apply list_elem_of_fmap_2).
    rewrite new_swaps_handles in Hin.
    apply list_elem_of_fmap in Hin as (e' & -> & He').
    rewrite Forall_forall in Hch. by apply Hch.
Qed.

Lemma tostring_tree (self : SVG) (w : world)
    (els : list (handle * dobj)) (t : node) :
  wf w →
  elements self = Some els →
  NoDup els.*1 →
  Forall (λ e : handle * dobj, e.1 ∈ child_ids (forest w)) els →
  encodable els = true →
  find_node (svg_root self) (forest w) = Some t →
  ∃ t',
    (tostring self w).1 = Ok (serialize t')
    ∧ find_node (svg_root self) (forest (tostring self w).2) = Some t'
    ∧ strip t' = encode_tree els t.
Proof.
  intros Hwf Hels Hdis Hch Henc Ht.
  destruct (tostring_run self w els t Hwf Hels Hdis Hch Henc Ht)
    as [Hbytes HG].
  destruct els as [|e els'].
  { exists t. unfold tostring, etree_tostring. rewrite Hels.
    cbn [cache_truth fst snd]. rewrite Ht.
    split; [done|]. split; [done|]. by rewrite encode_tree_nil. }
  specialize (HG ltac:(done)). destruct Hwf as [Hnd Hlt].
  exists (swap_all (new_swaps (next w) (e :: els')) t).
  split; [by rewrite Hbytes, serialize_render, strip_swap_all|].
  split; [|apply strip_swap_all].
  rewrite HG. apply find_node_Some in Ht as [Htn <-].
  apply find_node_swap_all; [done|by apply fresh_leaves_new_swaps|done].
Qed.

Lemma tostring_detaches (self : SVG) (w : world)
    (els : list (handle * dobj)) (t : node) :
  wf w →
  elements self = Some els → els ≠ [] →
  NoDup els.*1 →
  Forall (λ e : handle * dobj, e.1 ∈ child_ids (forest w)) els →
  encodable els = true →
  find_node (svg_root self) (forest w) = Some t →
  Forall (λ e : handle * dobj,
            getparent e.1 (forest (tostring self w).2) = None) els.
Proof.
  intros Hwf Hels Hne Hdis Hch Henc Ht.
  destruct (tostring_run self w els t Hwf Hels Hdis Hch Henc Ht) as [_ HG].
  specialize (HG Hne). destruct Hwf as [Hnd Hlt].
  apply Forall_forall. intros e He. apply getparent_None. rewrite HG.
  apply (swapped_out_no_parent _ (forest w)).
  - by apply fresh_leaves_new_swaps.
  - rewrite Forall_forall in Hch. by apply child_ids_ids, Hch.
  - rewrite new_swaps_handles. by apply list_elem_of_fmap_2.
Qed.

(** X6. [tostring] over a cache of distinct elements that all have a
    parent, with shapes the store takes: it succeeds and returns
    [etree.tostring] of the root's tree as the swaps leave it.  In that
    tree, as far as elements and attributes go (text and tails are
    outside the model), every outermost cached element has given its
    place to the childless element encoded from its shape, and every
    other element and attribute is as before. *)
Theorem tostring_writes_the_encoded_tree (self : SVG) (w : world)
    (els : list (handle * dobj)) (t : node) :
  wf w →
  elements self = Some els →
  NoDup els.*1 →
  Forall (λ e : handle * dobj, e.1 ∈ child_ids (forest w)) els →
  encodable els = true →
  find_node (svg_root self) (forest w) = Some t →
  ∃ t',
    (tostring self w).1 = Ok (serialize t')
    ∧ find_node (svg_root self) (forest (tostring self w).2) = Some t'
    ∧ strip t' = encode_tree els t.
Proof. apply tostring_tree. Qed.

Lemma shape_elements_of_root (root : handle) (F : list node) (t : node) :
  find_node root F = Some t →
  shape_elements root F
  = filter (λ el, recognized (ntag el) = true) (iter t).
Proof. intros Ht. unfold shape_elements, iter_root. by rewrite Ht. Qed.

(** Below a root that is no shape, the recognized elements are distinct
    and each has a parent. *)
Lemma shape_handles (root : handle) (w : world) (t : node) :
  wf w → find_node root (forest w) = Some t → recognized (ntag t) = false →
  NoDup (nid <$> shape_elements root (forest w))
  ∧ Forall (λ el, nid el ∈ child_ids (forest w))
      (shape_elements root (forest w)).
Proof.
  intros [Hnd _] Ht Hroot. rewrite (shape_elements_of_root _ _ _ Ht).
  apply find_node_Some in Ht as [Ht _].
  pose proof (NoDup_iter _ _ Hnd Ht) as Hit. split.
  - apply NoDup_fmap_2_strong.
    + intros x y [_ Hx]%list_elem_of_filter [_ Hy]%list_elem_of_filter.
      by apply (NoDup_fmap_elem_inj nid (iter t)).
    + apply NoDup_filter. by apply (NoDup_fmap_1 nid).
  - apply Forall_forall. intros el [Hrec Hel]%list_elem_of_filter.
    assert (Hin : nid el ∈ nid <$> iter t) by (by apply list_elem_of_fmap_2).
    rewrite (ids_kids_tree t) in Hin.
    apply elem_of_cons in Hin as [Heq|Hin].
    { apply (NoDup_fmap_elem_inj nid (iter t)) in Heq;
        [|done|done|apply iter_self]. congruence. }
    apply elem_of_kids in Hin as (m & c & Hm & Hc & Hco).
    apply elem_of_kids. exists m, c. split; [|done].
    by apply (iter_nodes _ t).
Qed.

Lemma decoded_paths_encodable (els : list node)
    (ds : list (handle * dobj)) :
  decode_all els = Ok ds → encodable (to_path outline <$> ds) = true.
Proof.
  revert ds. induction els as [|el els IH]; intros ds; cbn [decode_all].
  { by intros [= <-]. }
  destruct (_el_to_data el) as [d|e] eqn:Hd; [|done]. cbn.
  destruct (decode_all els) as [ds'|e]; [|done]. cbn. intros [= <-].
  rewrite fmap_cons. cbn [encodable forallb to_path snd].
  rewrite (decoded_path_storable outline el d Hd). by apply IH.
Qed.

(** X7. In a well-formed store, for a document whose root element is no
    shape: [shapes()] fills the cache with the decoded shapes in document
    order; [tostring()] after that succeeds whenever the store takes the
    shapes' values, and after an in-place [shapes_to_paths], which changes
    no tree, it always succeeds.  Either way it returns [etree.tostring]
    of the root's tree as the swaps leave it, in which, as far as
    elements and attributes go (text and tails are outside the model),
    every outermost recognized element has given its place to the
    childless element encoded from its shape (its path, after
    conversion). *)
Theorem populate_then_write (root : handle) (w : world) (t : node)
    (els : list (handle * dobj)) :
  wf w →
  find_node root (forest w) = Some t →
  recognized (ntag t) = false →
  decode_all (shape_elements root (forest w)) = Ok els →
  let cached := {| svg_root := root; elements := Some els |} in
  let paths := to_path outline <$> els in
  let converted := {| svg_root := root; elements := Some paths |} in
  shapes (SVG_init root) w = (Ok (els.*2), cached)
  ∧ (encodable els = true →
     ∃ t', (tostring cached w).1 = Ok (serialize t')
           ∧ find_node root (forest (tostring cached w).2) = Some t'
           ∧ strip t' = encode_tree els t)
  ∧ shapes_to_paths outline true (SVG_init root) w
    = (Ok converted, converted, w)
  ∧ ∃ t', (tostring converted w).1 = Ok (serialize t')
          ∧ find_node root (forest (tostring converted w).2) = Some t'
          ∧ strip t' = encode_tree paths t.
Proof.
  intros Hwf Ht Hroot Hdec cached paths converted.
  destruct (shape_handles root w t Hwf Ht Hroot) as [Hdis Hch].
  destruct (decode_all_handles _ _ Hdec) as [Hh _].
  assert (Hch' : ∀ l : list (handle * dobj), l.*1 = els.*1 →
            Forall (λ e : handle * dobj, e.1 ∈ child_ids (forest w)) l).
  { intros l Hl. apply Forall_forall. intros e He.
    assert (e.1 ∈ l.*1) as Hin by (by apply list_elem_of_fmap_2).
    rewrite Hl, Hh in Hin. apply list_elem_of_fmap in Hin as (el & -> & Hel).
    rewrite Forall_forall in Hch. by apply Hch. }
  assert (Hpaths : paths.*1 = els.*1).
  { unfold paths. rewrite <- list_fmap_compose. by apply list_fmap_ext. }
  split; [|split; [|split]].
  - unfold shapes. rewrite _elements_walks by done. cbn [SVG_init svg_root].
    by rewrite Hdec.
  - intros Henc.
    apply (tostring_tree cached w els t); try done.
    + by rewrite Hh.
    + by apply Hch'.
  - unfold shapes_to_paths. cbn [negb]. rewrite shapes_to_paths_inplace_spec.
    rewrite _elements_walks by done. cbn [SVG_init svg_root].
    by rewrite Hdec.
  - apply (tostring_tree converted w paths t); try done.
    + by rewrite Hpaths, Hh.
    + by apply Hch'.
    + by apply (decoded_paths_encodable (shape_elements root (forest w))).
Qed.

(** ** A second [tostring] *)

(** C9 (amended). In a document with at least one recognized shape
    element, once [shapes()] has populated the cache, a second
    [tostring()] fails: with an AttributeError when the store takes the
    cached values, with the TypeError of the first call when it does not.
    When the store takes the values and the root is no shape, the first
    call succeeds and puts a newly encoded element in the place of every
    cached element that is still in the tree; the cache keeps the handles
    of the elements taken out, none of which has a parent any more, and
    the second call fails on the first of them.  After an in-place
    [shapes_to_paths] the second call always fails with an
    AttributeError. *)
Theorem second_tostring_fails (root : handle) (w : world)
    (els : list (handle * dobj)) (self1 : SVG) :
  wf w →
  shape_elements root (forest w) ≠ [] →
  _elements (SVG_init root) w = (Ok els, self1) →
  let w1 := (tostring self1 w).2 in
  elements self1 = Some els ∧ els ≠ []
  ∧ (tostring self1 w1).1
    = Raise (if encodable els then AttributeError else TypeError)
  ∧ (encodable els = true →
     ∃ e, head els = Some e ∧ getparent e.1 (forest w1) = None)
  ∧ (∀ t, find_node root (forest w) = Some t →
          recognized (ntag t) = false → encodable els = true →
          ∃ t', (tostring self1 w).1 = Ok (serialize t')
                ∧ find_node root (forest w1) = Some t'
                ∧ strip t' = encode_tree els t
                ∧ Forall (λ e : handle * dobj,
                            getparent e.1 (forest w1) = None) els)
  ∧ ∀ self2,
      shapes_to_paths_inplace outline self1 w = (Ok (), self2) →
      (tostring self2 (tostring self2 w).2).1 = Raise AttributeError.
Proof.
  intros Hwf Hne. rewrite _elements_walks by done. cbn [SVG_init svg_root].
  destruct (decode_all _) as [ds|e] eqn:Hd; [|done].
  intros [= <- <-]. cbv zeta.
  destruct (decode_all_handles _ _ Hd) as [Hh _].
  destruct (shape_elements root (forest w)) as [|el sh] eqn:Hsh; [done|].
  destruct ds as [|[o s] ds]; [done|].
  pose proof Hh as Hhd. injection Hhd as -> _.
  assert (Ho : nid el < next w).
  { apply (shape_elements_valid root); [done|]. rewrite Hsh. left. }
  pose proof Hwf as [Hnd _].
  set (els := (nid el, s) :: ds) in *.
  set (self1 := {| svg_root := root; elements := Some els |}) in *.
  set (w1 := (tostring self1 w).2).
  destruct (tostring_twice self1 w (nid el) s ds Hnd eq_refl Ho)
    as [Hsnd Hpar].
  split; [done|]. split; [done|]. split; [exact Hsnd|]. split.
  { intros Henc. exists (nid el, s). split; [done|].
    apply getparent_None. by apply Hpar. }
  split.
  - intros t Ht Hroot Henc.
    destruct (shape_handles root w t Hwf Ht Hroot) as [Hdis Hch].
    rewrite Hsh in Hdis, Hch. rewrite <- Hh in Hdis.
    assert (Hch' : Forall (λ e : handle * dobj,
                             e.1 ∈ child_ids (forest w)) els).
    { apply Forall_forall. intros e He.
      assert (e.1 ∈ els.*1) as Hin by (by apply list_elem_of_fmap_2).
      rewrite Hh in Hin. apply list_elem_of_fmap in Hin as (el' & -> & Hel').
      rewrite Forall_forall in Hch. by apply Hch. }
    destruct (tostring_tree self1 w els t Hwf eq_refl Hdis Hch' Henc Ht)
      as (t' & Hbytes & Hfind & Hstrip).
    exists t'. split; [done|]. split; [done|]. split; [done|].
    by apply (tostring_detaches self1 w els t).
  - intros self2. rewrite shapes_to_paths_inplace_spec.
    unfold _elements. cbn [self1 elements cache_truth els default
                            from_option id svg_root].
    intros [= <-].
    assert (Hp : encodable (to_path outline <$> els) = true)
      by apply (decoded_paths_encodable (el :: sh) els Hd).
    destruct (tostring_twice
                {| svg_root := root;
                   elements := Some (fmap (M:=list) (to_path outline) els) |}
                w (nid el) (as_path outline s)
                (fmap (M:=list) (to_path outline) ds)
                Hnd eq_refl Ho) as [Hsnd2 _].
    etrans; [exact Hsnd2|].
    change ((nid el, as_path outline s) :: (to_path outline <$> ds))
      with (to_path outline <$> els).
    by rewrite Hp.
Qed.

(** ** How [tostring] fails, and what it leaves behind *)

Lemma new_swaps_fresh (k : handle) (els : list (handle * dobj)) :
  Forall (λ sw : handle * node, nchildren sw.2 = [] ∧ k ≤ nid sw.2)
    (new_swaps k els).
Proof.
  revert k. induction els as [|[o s] els IH]; intros k; [constructor|].
  cbn [new_swaps]. constructor; [by split|].
  eapply Forall_impl; [apply (IH (S k))|]. intros sw [? ?]. split; [done|lia].
Qed.

(** X8. The ways [tostring] ends.  With no cache, or an empty one, it
    returns the bytes of the tree and changes nothing.  With a populated
    cache it raises TypeError, before touching any tree, exactly when the
    store refuses a value of some cached shape; any other failure is an
    AttributeError. *)
Theorem tostring_outcomes (self : SVG) (w : world) :
  (cache_truth (elements self) = false →
   tostring self w = (Ok (etree_tostring (svg_root self) (forest w)), w))
  ∧ (cache_truth (elements self) = true →
     ((tostring self w).1 = Raise TypeError
      ↔ encodable (default [] (elements self)) = false)
     ∧ (encodable (default [] (elements self)) = false →
        forest (tostring self w).2 = forest w))
  ∧ ∀ e, (tostring self w).1 = Raise e → e = TypeError ∨ e = AttributeError.
Proof.
  unfold tostring. destruct (cache_truth (elements self)).
  2:{ split; [done|]. split; [done|]. by intros e [=]. }
  split; [done|].
  destruct (build_swaps_new_swaps (default [] (elements self)) w)
    as (w1 & -> & HF1).
  destruct (encodable (default [] (elements self))).
  - pose proof (_apply_swaps_Raise
      (new_swaps (next w) (default [] (elements self))) (forest w1)) as Hr.
    destruct (_apply_swaps _ (forest w1)) as [[[]|e'] G]; cbn [fst] in *.
    + split; [intros _; split; [split; done|done]|by intros e [=]].
    + specialize (Hr e' eq_refl) as ->.
      split; [intros _; split; [split; done|done]|].
      intros e [= <-]. by right.
  - cbn [fst snd]. split; [by intros _|]. intros e [= <-]. by left.
Qed.

(** X9. A cached element without parent, such as a root element that is
    itself a shape, makes [tostring] raise AttributeError whenever the
    store takes the cached values. *)
Theorem tostring_raises_on_a_parentless_element (self : SVG) (w : world)
    (els : list (handle * dobj)) (o : handle) :
  elements self = Some els →
  encodable els = true →
  o ∈ els.*1 → o < next w → o ∉ child_ids (forest w) →
  (tostring self w).1 = Raise AttributeError.
Proof.
  intros Hels Henc Hin Ho Hno. unfold tostring. rewrite Hels.
  destruct els as [|e els']; [by apply elem_of_nil in Hin|].
  set (els := e :: els') in *. cbn [cache_truth default from_option id].
  destruct (build_swaps_new_swaps els w) as (w1 & -> & HF1).
  rewrite Henc, HF1.
  pose proof (_apply_swaps_parentless_elem (new_swaps (next w) els)
                (forest w) o) as Hr.
  rewrite new_swaps_handles in Hr. specialize (Hr Hin Hno).
  destruct (_apply_swaps _ (forest w)) as [r G]. cbn [fst] in Hr.
  rewrite Hr; [done|].
  eapply Forall_impl; [apply new_swaps_fresh|].
  intros sw [? ?]. split; [done|lia].
Qed.

(** X10. [tostring] does not refresh the cache: after a successful call
    over a populated cache, [self] still holds the same cache, but every
    cached element is out of the document: it has no parent any more and
    is not below the root. *)
Theorem cache_is_stale_after_tostring (self : SVG) (w : world)
    (els : list (handle * dobj)) (t : node) :
  wf w →
  elements self = Some els → els ≠ [] →
  NoDup els.*1 →
  Forall (λ e : handle * dobj, e.1 ∈ child_ids (forest w)) els →
  encodable els = true →
  find_node (svg_root self) (forest w) = Some t →
  svg_root self ∉ els.*1 →
  let w' := (tostring self w).2 in
  ∃ t', find_node (svg_root self) (forest w') = Some t'
        ∧ strip t' = encode_tree els t
        ∧ Forall (λ e : handle * dobj,
                    getparent e.1 (forest w') = None ∧ e.1 ∉ ids [t']) els.
Proof.
  intros Hwf Hels Hne Hdis Hch Henc Ht Hroot w'.
  destruct (tostring_run self w els t Hwf Hels Hdis Hch Henc Ht) as [_ HG].
  specialize (HG Hne). fold w' in HG. destruct Hwf as [Hnd Hlt].
  pose proof (fresh_leaves_new_swaps (forest w) (next w) els Hlt) as Hfl.
  apply find_node_Some in Ht as [Htn Hr].
  exists (swap_all (new_swaps (next w) els) t).
  assert (Hfind : find_node (svg_root self) (forest w')
                  = Some (swap_all (new_swaps (next w) els) t)).
  { rewrite HG, <- Hr. by apply find_node_swap_all. }
  split; [done|]. split; [apply strip_swap_all|].
  apply Forall_forall. intros e He.
  assert (Hin : e.1 ∈ els.*1) by (by apply list_elem_of_fmap_2).
  assert (Hno : e.1 ∉ child_ids (forest w')).
  { rewrite HG. apply (swapped_out_no_parent _ (forest w)); [done| |].
    - rewrite Forall_forall in Hch. by apply child_ids_ids, Hch.
    - by rewrite new_swaps_handles. }
  split; [by apply getparent_None|].
  apply (not_child_not_below (forest w')); [|done|].
  - by apply find_node_Some in Hfind as [? _].
  - rewrite nid_swap_all, Hr. intros Heq. apply Hroot. by rewrite <- Heq.
Qed.

(** ** Parsing, copying, and what decoding reads *)

Lemma strip_label (k : handle) (x : xml) : strip (label k x) = x.
Proof.
  revert k. induction x as [tg a cs IH] using xml_forall_ind. intros k.
  cbn [label strip]. f_equal. generalize (S k). clear k.
  induction cs as [|c cs IHcs]; intros k; [done|].
  apply Forall_cons in IH as [IHc IH]. cbn [label_children map].
  by rewrite IHc, (IHcs IH).
Qed.

Lemma nid_label (k : handle) (x : xml) : nid (label k x) = k.
Proof. by destruct x. Qed.

(** X11. [fromstring] then [tostring]: parsing adds the document as a
    tree of its own under fresh identities, keeps the store well-formed
    and leaves the cache unpopulated; writing the normalizer out right
    away returns the bytes of the document that was read and changes
    nothing. *)
Theorem parse_then_write (x : xml) (w : world) :
  wf w →
  let svg := (fromstring x w).1 in
  let w' := (fromstring x w).2 in
  wf w'
  ∧ elements svg = None
  ∧ (∃ t, forest w' = forest w ++ [t]
          ∧ find_node (svg_root svg) (forest w') = Some t
          ∧ strip t = x)
  ∧ tostring svg w' = (Ok (render x), w').
Proof.
  intros Hwf svg w'.
  assert (Hfind : find_node (next w) (forest w ++ [label (next w) x])
                  = Some (label (next w) x)).
  { rewrite find_node_app_r; [apply find_node_root, nid_label|].
    destruct Hwf as [_ Hlt]. rewrite Forall_forall in Hlt.
    intros Hin%Hlt. lia. }
  split; [apply (wf_fromstring x w Hwf)|]. split; [done|]. split.
  - exists (label (next w) x). split; [done|]. split; [done|].
    apply strip_label.
  - unfold tostring, etree_tostring. subst svg w'.
    unfold fromstring, etree_fromstring.
    cbn [fst snd SVG_init elements svg_root cache_truth forest].
    by rewrite Hfind, serialize_render, strip_label.
Qed.

(** X12. [apply_clip_paths] changes no tree and never fails.  In place
    it returns [self] and leaves the store as it was.  Otherwise it
    returns a normalizer with an unpopulated cache over a copy of the
    document under fresh identities; the copy has the content of the
    source, and [self] and the source tree stay as they were. *)
Theorem apply_clip_paths_changes_no_tree (inplace : bool) (self : SVG)
    (w : world) (t : node) :
  wf w →
  find_node (svg_root self) (forest w) = Some t →
  ∃ svg w',
    apply_clip_paths inplace self w = (Ok svg, self, w')
    ∧ wf w'
    ∧ find_node (svg_root self) (forest w') = Some t
    ∧ (∃ t', find_node (svg_root svg) (forest w') = Some t'
             ∧ strip t' = strip t)
    ∧ (if inplace then svg = self ∧ w' = w
       else elements svg = None ∧ (svg_root svg ∉ ids (forest w))
            ∧ forest w' = forest w ++ [relabel (next w) t]).
Proof.
  intros Hwf Ht. unfold apply_clip_paths, deepcopy. destruct inplace; cbn [negb].
  { exists self, w. split; [done|]. split; [done|]. split; [done|].
    split; [by exists t|done]. }
  rewrite Ht.
  eexists _, _. split; [done|].
  split; [by apply (wf_deepcopy w (svg_root self))|]. cbn [forest].
  split; [by apply find_node_app_l|].
  cbn [SVG_init svg_root elements].
  split; [|split; [done|split; [|done]]].
  - exists (relabel (next w) t). split; [|apply strip_relabel].
    rewrite (find_node_deepcopy w _ t Hwf).
    apply find_node_Some in Ht as [_ ->]. by rewrite decide_True.
  - destruct Hwf as [_ Hlt]. rewrite Forall_forall in Hlt.
    intros Hin%Hlt. lia.
Qed.

Lemma read_args_agree (a1 a2 : list (string * string)) (fs : list field)
    (acc : list (string * value)) :
  (∀ f, f ∈ fs →
     dict_get (field_attr (f_name f)) a1
     = dict_get (field_attr (f_name f)) a2) →
  read_args a1 fs acc = read_args a2 fs acc.
Proof.
  revert acc. induction fs as [|f fs IH]; intros acc Hag; [done|].
  cbn [read_args]. rewrite <- (Hag f) by apply list_elem_of_here.
  destruct (dict_get (field_attr (f_name f)) a1) as [s|].
  - destruct (convert (f_type f) s); [|done]. cbn.
    apply IH. intros f' Hf'. by apply Hag, list_elem_of_further.
  - apply IH. intros f' Hf'. by apply Hag, list_elem_of_further.
Qed.

(** X13. Decoding reads the tag and the attributes that the class of the
    tag declares, and nothing else: two elements with the same tag that
    agree on those attributes decode alike, to the same object or the
    same error, whatever their other attributes, their children and
    their identities. *)
Theorem decoding_reads_only_declared_attributes (el1 el2 : node)
    (c : shape_class) :
  ntag el1 = ntag el2 →
  dict_get (ntag el1) _ELEMENT_CLASSES = Some c →
  (∀ f, f ∈ fields c →
     dict_get (field_attr (f_name f)) (nattrib el1)
     = dict_get (field_attr (f_name f)) (nattrib el2)) →
  _el_to_data el1 = _el_to_data el2.
Proof.
  intros Htag Hc Hag. unfold _el_to_data. rewrite <- Htag, Hc.
  by rewrite (read_args_agree _ _ _ _ Hag).
Qed.

End further_properties.


(** ** Further worked examples *)

Section further_examples.
Local Existing Instance literal_float.

Ltac by_computation := apply (bool_decide_unpack _); vm_compute; exact I.

Lemma clip_doc_wf : wf (loaded clip_doc).2.
Proof. split; by_computation. Qed.

Lemma clip_doc_decodes :
  decode_all (shape_elements 0 (forest (loaded clip_doc).2)) = Ok clip_cache.
Proof.
  assert (shape_elements 0 (forest (loaded clip_doc).2)
          = [Node 3 "path" [("d", "M0 0L1 0L1 1Z")] [];
             Node 4 "path" [("d", "M1 1L2 1L2 2Z")] [];
             Node 5 "path" [("d", "M0 0L2 0L2 2Z"); ("clip-path", "url(#c)")]
               []])
    as -> by (vm_compute; reflexivity).
  cbn [decode_all].
  rewrite (_el_to_data_construct _ SVGPath [("d", VStr "M0 0L1 0L1 1Z")])
    by (vm_compute; reflexivity).
  rewrite (_el_to_data_construct _ SVGPath [("d", VStr "M1 1L2 1L2 2Z")])
    by (vm_compute; reflexivity).
  rewrite (_el_to_data_construct _ SVGPath
             [("clip_path", VStr "url(#c)"); ("d", VStr "M0 0L2 0L2 2Z")])
    by (vm_compute; reflexivity).
  reflexivity.
Qed.

Lemma clip_cache_has_parents :
  Forall (λ e : handle * dobj, e.1 ∈ child_ids (forest (loaded clip_doc).2))
    clip_cache.
Proof. repeat constructor; by_computation. Qed.

Lemma clipped_path_strings : string_object clipped_path.
Proof.
  intros f Hf. change (dtype clipped_path) with SVGPath in Hf.
  unfold fields, presentation_fields in Hf.
  cbn [geometry_fields fmap list_fmap app] in Hf.
  rewrite ?elem_of_cons, elem_of_nil in Hf.
  repeat (destruct Hf as [->|Hf];
          [split; [reflexivity|eexists; vm_compute; reflexivity]|]).
  done.
Qed.

Lemma decoding_fails_only_on_tag_or_number_witness :
  _el_to_data (Node 0 "g" [] []) = Raise (ValueError "Bad tag <g>")
  ∧ ∃ msg, ValueError "Bad tag <g>" = ValueError msg.
Proof.
  assert (Hr : _el_to_data (Node 0 "g" [] [])
               = Raise (ValueError "Bad tag <g>")) by (vm_compute; reflexivity).
  split; [exact Hr|].
  exact (proj2 (decoding_fails_only_on_tag_or_number (Node 0 "g" [] []))
           _ Hr).
Defined.

Lemma encode_then_decode_witness :
  string_object clipped_path
  ∧ ∃ el o',
      _data_to_el clipped_path empty_world
      = (Ok el, {| forest := []; next := 1 |})
      ∧ _el_to_data el = Ok o'
      ∧ dtype o' = SVGPath
      ∧ dget o' "d" = VStr "M0 0L1 1"
      ∧ dget o' "clip_path" = VStr "url(#c)".
Proof.
  split; [exact clipped_path_strings|].
  destruct (encode_then_decode clipped_path empty_world clipped_path_strings)
    as (el & o' & Hel & Ho' & Hty & Hfields).
  exists el, o'. split; [exact Hel|]. split; [exact Ho'|].
  split; [exact Hty|]. split.
  - apply (Hfields (str_field "d")).
    change (dtype clipped_path) with SVGPath. unfold fields. solve_elem.
  - apply (Hfields (str_field "clip_path")).
    change (dtype clipped_path) with SVGPath. unfold fields. solve_elem.
Defined.

Lemma encoding_namespaces_the_tag_witness :
  _el_to_data stroked_path = Ok stroked_path_data
  ∧ ∃ k, k ∈ shape_tags
         ∧ (ntag stroked_path = k ∨ ntag stroked_path = namespaced k)
         ∧ ∀ w el' w', _data_to_el stroked_path_data w = (Ok el', w') →
                       ntag el' = namespaced k.
Proof.
  split; [exact stroked_path_decodes|].
  destruct (encoding_namespaces_the_tag stroked_path _ stroked_path_decodes)
    as (k & Hk & Htag & _ & _ & Hout).
  exists k. split; [exact Hk|]. split; [exact Htag|exact Hout].
Defined.


Lemma tostring_writes_the_encoded_tree_witness :
  let w := (loaded clip_doc).2 in
  wf w ∧ encodable clip_cache = true
  ∧ find_node 0 (forest w) = Some (label 0 clip_doc)
  ∧ ∃ t', (tostring clip_svg_cached w).1 = Ok (serialize t')
          ∧ find_node 0 (forest (tostring clip_svg_cached w).2) = Some t'
          ∧ strip t' = encode_tree clip_cache (label 0 clip_doc).
Proof.
  intros w.
  assert (Hd : NoDup clip_cache.*1) by by_computation.
  assert (He : encodable clip_cache = true) by (vm_compute; reflexivity).
  assert (Hf : find_node 0 (forest w) = Some (label 0 clip_doc))
    by (vm_compute; reflexivity).
  split; [exact clip_doc_wf|]. split; [exact He|]. split; [exact Hf|].
  exact (tostring_writes_the_encoded_tree clip_svg_cached w clip_cache _
           clip_doc_wf eq_refl Hd clip_cache_has_parents He Hf).
Defined.

Lemma populate_then_write_witness :
  let w := (loaded clip_doc).2 in
  let converted :=
    {| svg_root := 0;
       elements := Some (to_path example_outline <$> clip_cache) |} in
  wf w ∧ recognized (ntag (label 0 clip_doc)) = false
  ∧ decode_all (shape_elements 0 (forest w)) = Ok clip_cache
  ∧ ∃ t', (tostring converted w).1 = Ok (serialize t')
          ∧ find_node 0 (forest (tostring converted w).2) = Some t'
          ∧ strip t'
            = encode_tree (to_path example_outline <$> clip_cache)
                (label 0 clip_doc).
Proof.
  intros w converted.
  assert (Hf : find_node 0 (forest w) = Some (label 0 clip_doc))
    by (vm_compute; reflexivity).
  assert (Hr : recognized (ntag (label 0 clip_doc)) = false)
    by (vm_compute; reflexivity).
  split; [exact clip_doc_wf|]. split; [exact Hr|].
  split; [exact clip_doc_decodes|].
  exact (proj2 (proj2 (proj2
    (populate_then_write example_outline 0 w _ clip_cache
       clip_doc_wf Hf Hr clip_doc_decodes)))).
Defined.

Lemma clip_doc_cache :
  _elements (SVG_init 0) (loaded clip_doc).2 = (Ok clip_cache, clip_svg_cached).
Proof.
  rewrite _elements_walks by reflexivity. cbn [SVG_init svg_root].
  by rewrite clip_doc_decodes.
Qed.

(** The claim C9 as stated fails where the store refuses a cached
    value: the first [tostring] raises TypeError and replaces nothing,
    the cached elements keep their parents, and the second call fails as
    the first did, not for want of a parent. *)
Lemma first_tostring_may_replace_nothing :
  let w := (loaded circle_doc).2 in
  let w1 := (tostring circle_svg_cached w).2 in
  _elements (SVG_init 0) w = (Ok circle_cache, circle_svg_cached)
  ∧ (tostring circle_svg_cached w).1 = Raise TypeError
  ∧ forest w1 = forest w
  ∧ getparent 1 (forest w1) = Some 0
  ∧ getparent 3 (forest w1) = Some 2
  ∧ (tostring circle_svg_cached w1).1 = Raise TypeError.
Proof.
  split; [exact circle_doc_cache|].
  repeat split; vm_compute; reflexivity.
Qed.

Lemma second_tostring_fails_witness :
  let w := (loaded clip_doc).2 in
  let w1 := (tostring clip_svg_cached w).2 in
  wf w ∧ shape_elements 0 (forest w) ≠ []
  ∧ _elements (SVG_init 0) w = (Ok clip_cache, clip_svg_cached)
  ∧ encodable clip_cache = true
  ∧ (∃ t', (tostring clip_svg_cached w).1 = Ok (serialize t')
           ∧ find_node 0 (forest w1) = Some t'
           ∧ strip t' = encode_tree clip_cache (label 0 clip_doc)
           ∧ Forall (λ e : handle * dobj,
                       getparent e.1 (forest w1) = None) clip_cache)
  ∧ (tostring clip_svg_cached w1).1 = Raise AttributeError.
Proof.
  intros w w1.
  assert (Hne : shape_elements 0 (forest w) ≠ [])
    by (vm_compute; discriminate).
  assert (He : encodable clip_cache = true) by (vm_compute; reflexivity).
  assert (Hf : find_node 0 (forest w) = Some (label 0 clip_doc))
    by (vm_compute; reflexivity).
  assert (Hr : recognized (ntag (label 0 clip_doc)) = false)
    by (vm_compute; reflexivity).
  split; [exact clip_doc_wf|]. split; [exact Hne|].
  split; [exact clip_doc_cache|]. split; [exact He|].
  destruct (second_tostring_fails example_outline 0 w _ _
              clip_doc_wf Hne clip_doc_cache)
    as (_ & _ & Hsnd & _ & Hfirst & _).
  split; [exact (Hfirst _ Hf Hr He)|].
  rewrite He in Hsnd. exact Hsnd.
Defined.

Lemma tostring_outcomes_witness :
  let w := (loaded circle_doc).2 in
  cache_truth (elements circle_svg_cached) = true
  ∧ encodable circle_cache = false
  ∧ (tostring circle_svg_cached w).1 = Raise TypeError
  ∧ forest (tostring circle_svg_cached w).2 = forest w.
Proof.
  intros w.
  assert (Hc : cache_truth (elements circle_svg_cached) = true)
    by reflexivity.
  assert (He : encodable circle_cache = false) by (vm_compute; reflexivity).
  split; [exact Hc|]. split; [exact He|].
  destruct (proj1 (proj2 (tostring_outcomes circle_svg_cached w)) Hc)
    as [Hiff Hkeep].
  split; [exact (proj2 Hiff He)|exact (Hkeep He)].
Defined.

Lemma tostring_raises_on_a_parentless_element_witness :
  let w := (loaded root_shape_doc).2 in
  let self := {| svg_root := 0; elements := Some root_shape_cache |} in
  decode_all (shape_elements 0 (forest w)) = Ok root_shape_cache
  ∧ encodable root_shape_cache = true
  ∧ (0 ∉ child_ids (forest w))
  ∧ (tostring self w).1 = Raise AttributeError.
Proof.
  intros w self.
  assert (Hdec : decode_all (shape_elements 0 (forest w))
                 = Ok root_shape_cache).
  { assert (shape_elements 0 (forest w) = [Node 0 "path" [("d", "M0 0L1 1")] []])
      as -> by (vm_compute; reflexivity).
    cbn [decode_all].
    rewrite (_el_to_data_construct _ SVGPath [("d", VStr "M0 0L1 1")])
      by (vm_compute; reflexivity).
    reflexivity. }
  assert (He : encodable root_shape_cache = true) by (vm_compute; reflexivity).
  assert (Hin : 0 ∈ root_shape_cache.*1) by by_computation.
  assert (Hlt : 0 < next w) by by_computation.
  assert (Hno : 0 ∉ child_ids (forest w)) by by_computation.
  split; [exact Hdec|]. split; [exact He|]. split; [exact Hno|].
  exact (tostring_raises_on_a_parentless_element self w root_shape_cache 0
           eq_refl He Hin Hlt Hno).
Defined.

Lemma cache_is_stale_after_tostring_witness :
  let w := (loaded clip_doc).2 in
  let w' := (tostring clip_svg_cached w).2 in
  wf w ∧ clip_cache ≠ [] ∧ (0 ∉ clip_cache.*1)
  ∧ ∃ t', find_node 0 (forest w') = Some t'
          ∧ strip t' = encode_tree clip_cache (label 0 clip_doc)
          ∧ Forall (λ e : handle * dobj,
                      getparent e.1 (forest w') = None ∧ e.1 ∉ ids [t'])
              clip_cache.
Proof.
  intros w w'.
  assert (Hne : clip_cache ≠ []) by discriminate.
  assert (Hd : NoDup clip_cache.*1) by by_computation.
  assert (He : encodable clip_cache = true) by (vm_compute; reflexivity).
  assert (Hf : find_node 0 (forest w) = Some (label 0 clip_doc))
    by (vm_compute; reflexivity).
  assert (Hroot : 0 ∉ clip_cache.*1) by by_computation.
  split; [exact clip_doc_wf|]. split; [exact Hne|]. split; [exact Hroot|].
  exact (cache_is_stale_after_tostring clip_svg_cached w clip_cache _
           clip_doc_wf eq_refl Hne Hd clip_cache_has_parents He Hf Hroot).
Defined.

Lemma parse_then_write_witness :
  wf empty_world
  ∧ tostring (fromstring clip_doc empty_world).1
      (fromstring clip_doc empty_world).2
    = (Ok (render clip_doc), (fromstring clip_doc empty_world).2).
Proof.
  assert (Hwf : wf empty_world) by (split; by_computation).
  split; [exact Hwf|].
  exact (proj2 (proj2 (proj2 (parse_then_write clip_doc empty_world Hwf)))).
Defined.

Lemma apply_clip_paths_changes_no_tree_witness :
  let svg := (loaded clip_doc).1 in
  let w := (loaded clip_doc).2 in
  wf w ∧ find_node (svg_root svg) (forest w) = Some (label 0 clip_doc)
  ∧ ∃ copy w',
      apply_clip_paths false svg w = (Ok copy, svg, w')
      ∧ find_node (svg_root svg) (forest w') = Some (label 0 clip_doc)
      ∧ ∃ t', find_node (svg_root copy) (forest w') = Some t'
              ∧ strip t' = strip (label 0 clip_doc).
Proof.
  intros svg w.
  assert (Hf : find_node (svg_root svg) (forest w) = Some (label 0 clip_doc))
    by (vm_compute; reflexivity).
  split; [exact clip_doc_wf|]. split; [exact Hf|].
  destruct (apply_clip_paths_changes_no_tree false svg w _ clip_doc_wf Hf)
    as (copy & w' & Hrun & _ & Hsrc & Hcopy & _).
  exists copy, w'. split; [exact Hrun|]. split; [exact Hsrc|exact Hcopy].
Defined.

Lemma decoding_reads_only_declared_attributes_witness :
  ntag stroked_path = ntag reordered_path
  ∧ nattrib stroked_path ≠ nattrib reordered_path
  ∧ _el_to_data stroked_path = _el_to_data reordered_path.
Proof.
  assert (Ht : ntag stroked_path = ntag reordered_path) by reflexivity.
  assert (Hc : dict_get (ntag stroked_path) _ELEMENT_CLASSES = Some SVGPath)
    by (vm_compute; reflexivity).
  split; [exact Ht|]. split; [discriminate|].
  apply (decoding_reads_only_declared_attributes stroked_path reordered_path
           SVGPath Ht Hc).
  intros f Hf. unfold fields, presentation_fields in Hf.
  cbn [geometry_fields fmap list_fmap app] in Hf.
  rewrite ?elem_of_cons, elem_of_nil in Hf.
  repeat (destruct Hf as [->|Hf]; [vm_compute; reflexivity|]).
  done.
Defined.

End further_examples.
